(** * artifish: crawl scheduling and follow/unfollow reconciliation

    A shallow embedding of the parts of the repository that write the
    [follows] table and drive the crawl:

    - [src/artifish/db/db_service.py]      ([DatabaseService])
    - [src/artifish/tools/network_crawler.py] ([NetworkCrawlerService.crawl])
    - [src/workers/network_traversal.py]   ([_store_follow])
    - [src/workers/unfollow_detector.py]   ([BlueskyAPIClient.get_all_follows],
                                            [UnfollowDetector])
    - [src/workers/network_traversal_db_queue.py]
                                           ([BlueskyAPIClient], [NetworkTraversal])

    Python dictionaries and sets are stdpp [gmap]s and [gset]s, database
    tables are lists of row records in storage order, wall-clock time is an
    integer number of seconds, and every effect (clock, remote API, store
    RPC) is passed explicitly. *)

From Stdlib Require Import ZArith Ascii String List Lia.
From stdpp Require Import base decidable option list gmap strings fin_sets.

Local Open Scope string_scope.
Local Open Scope Z_scope.
Local Open Scope list_scope.

(** ** Python truthiness *)

(** [if s:] for a value that is [None] or a [str]. *)
Definition truthy (s : option string) : bool :=
  match s with
  | None => false
  | Some x => negb (String.eqb x "")
  end.

(** [if t:] for a value that is [None] or a number. *)
Definition truthy_num (t : option Z) : bool :=
  match t with
  | None => false
  | Some x => negb (Z.eqb x 0)
  end.

(** ** Wire types of the remote API *)

Module Api.

(** One element of a [follows] / [followers] array: the keys the crawlers
    read with [.get]. *)
Record Actor := mkActor {
  actor_did : option string;
  actor_handle : option string
}.

(** A rate-limit header value as [int()] sees it: text that parses to an
    integer, or text on which [int()] raises [ValueError]. *)
Inductive HeaderVal :=
  | HInt (z : Z)
  | HBad.

Definition py_int (v : HeaderVal) : option Z :=
  match v with
  | HInt z => Some z
  | HBad => None
  end.

(** A JSON object returned with status 200 is a dictionary.  Its values
    are strings or arrays of actors; values of any other JSON type are
    outside the model. *)
Inductive Value :=
  | VStr (s : string)
  | VActors (l : list Actor).

(** [obj.get(key)] for a key that holds a string. *)
Definition get_str (key : string) (obj : gmap string Value) : option string :=
  match obj !! key with
  | Some (VStr s) => Some s
  | _ => None
  end.

(** [obj.get(key, [])] for a key that holds an array of actors. *)
Definition get_actors (key : string) (obj : gmap string Value) : list Actor :=
  match obj !! key with
  | Some (VActors l) => l
  | _ => []
  end.

(** What one HTTP exchange yields: a 200 with headers and a JSON body, or
    anything else (another status, or an exception raised by the transport),
    which every caller handles the same way. *)
Inductive Reply :=
  | Ok200 (headers : gmap string HeaderVal) (body : gmap string Value)
  | Failed.

Inductive Request :=
  | CreateSession (identifier password : option string)
  | DescribeRepo (repo : string)
  | GetProfile (actor : string)
  | GetFollows (actor : string) (cursor : option string)
  | GetFollowers (actor : string) (cursor : option string).

End Api.

(** ** The [follows] table *)

Module Store.

Inductive FollowStatus := active | unfollowed.

#[global] Instance FollowStatus_eq_dec : EqDecision FollowStatus.
Proof. solve_decision. Defined.

(** One row of [follows]; the columns are those the sources read or write. *)
Record FollowRow := mkRow {
  id : nat;
  follower_did : string;
  following_did : string;
  follow_status : FollowStatus;
  created_at : Z;
  last_verified_at : Z;
  unfollowed_at : option Z
}.

Abbreviation Table := (list FollowRow).

(** [.eq('follower_did', a).eq('following_did', b)] *)
Definition is_pair (a b : string) (r : FollowRow) : Prop :=
  follower_did r = a ∧ following_did r = b.

#[global] Instance is_pair_dec a b r : Decision (is_pair a b r).
Proof. unfold is_pair. apply _. Defined.

(** [.eq('follower_did', did).eq('follow_status', 'active')] *)
Definition is_active_of (did : string) (r : FollowRow) : Prop :=
  follower_did r = did ∧ follow_status r = active.

#[global] Instance is_active_of_dec did r : Decision (is_active_of did r).
Proof. unfold is_active_of. apply _. Defined.

(** [.select(...).<filters>.execute().data]: the matching rows, in storage
    order. *)
Definition select (P : FollowRow -> Prop) `{!∀ r, Decision (P r)}
    (tbl : Table) : list FollowRow :=
  filter P tbl.

(** The identity column: a fresh key, larger than every key in use. *)
Definition next_id (tbl : Table) : nat :=
  S (foldr Nat.max 0%nat (id <$> tbl)).

(** Modelled from the spec: the column defaults of [follows], whose schema is
    not among the sources.  A row inserted without a status is [active] and
    has no [unfollowed_at]; [created_at] and [last_verified_at] default to the
    insertion time unless the statement supplies them. *)
Definition new_row (tbl : Table) (a b : string) (now : Z) : FollowRow :=
  mkRow (next_id tbl) a b active now now None.

(** [.insert(row).execute()] *)
Definition insert (r : FollowRow) (tbl : Table) : Table := tbl ++ [r].

(** [.update(f).eq('id', i).execute()] *)
Definition update_id (f : FollowRow -> FollowRow) (i : nat) (tbl : Table) : Table :=
  (fun r => if decide (id r = i) then f r else r) <$> tbl.

(** [DatabaseService.add_follow_relationship]: the returned row and the
    table afterwards. *)
Definition add_follow_relationship (now : Z) (follower following : string)
    (tbl : Table) : option FollowRow * Table :=
  match select (is_pair follower following) tbl with
  | r :: _ => (Some r, tbl)
  | [] =>
      let r := new_row tbl follower following now in
      (Some r, insert r tbl)
  end.

(** [NetworkTraversal._store_follow] of [network_traversal.py]. *)
Definition set_verified (now : Z) (r : FollowRow) : FollowRow :=
  mkRow (id r) (follower_did r) (following_did r) (follow_status r)
        (created_at r) now (unfollowed_at r).

Definition store_follow (now : Z) (follower following : string)
    (tbl : Table) : Table :=
  match select (is_pair follower following) tbl with
  | [] => insert (new_row tbl follower following now) tbl
  | r :: _ => update_id (set_verified now) (id r) tbl
  end.

(** The two loops of [NetworkCrawlerService.crawl] that touch [follows]:
    one edge [did -> f] per follow, then one edge [f -> did] per follower.
    Each observed account comes with the store's clock at its insert. *)
Definition crawl (did : string) (follows followers : list (Z * string))
    (tbl : Table) : Table :=
  let tbl1 :=
    foldl (fun t f => snd (add_follow_relationship (fst f) did (snd f) t))
          tbl follows in
  foldl (fun t f => snd (add_follow_relationship (fst f) (snd f) did t))
        tbl1 followers.

End Store.

(** ** The standalone unfollow detector ([unfollow_detector.py]) *)

Module Detector.
Import Api Store.

(** [for follow in result.get("follows", []): ... follows.add(follow_did)] *)
Definition add_dids (page : list Actor) (follows : gset string) : gset string :=
  foldl (fun acc f =>
           match actor_did f with
           | Some d => if truthy (Some d) then {[ d ]} ∪ acc else acc
           | None => acc
           end) follows page.

(** [BlueskyAPIClient.get_all_follows]: the [while True] loop, one
    iteration per unit of fuel.  [server] answers the request for one page;
    a non-200 answer and an exception both leave the loop with what has
    been gathered so far.  [None] means the fuel ran out while the server
    was still handing out cursors. *)
Fixpoint get_all_follows_loop (fuel : nat) (server : Request -> Reply)
    (did : string) (cursor : option string) (follows : gset string)
    : option (gset string) :=
  match fuel with
  | O => None
  | S fuel' =>
      let params := GetFollows did (if truthy cursor then cursor else None) in
      match server params with
      | Ok200 _ result =>
          let follows' := add_dids (get_actors "follows" result) follows in
          let cursor' := get_str "cursor" result in
          if truthy cursor' then
            get_all_follows_loop fuel' server did cursor' follows'
          else Some follows'
      | Failed => Some follows
      end
  end.

Definition get_all_follows (fuel : nat) (server : Request -> Reply)
    (did : string) : option (gset string) :=
  get_all_follows_loop fuel server did None ∅.

(** [{follow['following_did']: follow['id'] for follow in result.data}]:
    a later row overwrites an earlier one with the same key. *)
Definition db_follows_of (rows : list FollowRow) : gmap string nat :=
  foldl (fun m r => <[following_did r := id r]> m) ∅ rows.

(** [.update({"follow_status": "unfollowed", "unfollowed_at": now})] *)
Definition mark_unfollowed (now : Z) (r : FollowRow) : FollowRow :=
  mkRow (id r) (follower_did r) (following_did r) unfollowed
        (created_at r) (last_verified_at r) (Some now).

(** The [for unfollowed_did in unfollowed_dids] loop; [now k] is
    [datetime.now()] at the [k]-th update.  A missing key would raise
    [KeyError] and end the pass in its [except]. *)
Fixpoint mark_all (now : nat -> Z) (k : nat) (db_follows : gmap string nat)
    (unfollowed_dids : list string) (tbl : Table) : Table :=
  match unfollowed_dids with
  | [] => tbl
  | d :: rest =>
      match db_follows !! d with
      | Some follow_id =>
          mark_all now (S k) db_follows rest
                   (update_id (mark_unfollowed (now k)) follow_id tbl)
      | None => tbl
      end
  end.

(** [UnfollowDetector._process_account_unfollows] once [current_follows]
    has come back from the API: the table afterwards and the logged number
    of detected unfollows. *)
Definition apply_unfollows (now : nat -> Z) (did : string)
    (current_follows : gset string) (tbl : Table) : Table * nat :=
  let db_follows := db_follows_of (select (is_active_of did) tbl) in
  let unfollowed_dids := dom db_follows ∖ current_follows in
  (mark_all now 0 db_follows (elements unfollowed_dids) tbl,
   size unfollowed_dids).

(** [UnfollowDetector._process_account_unfollows]. *)
Definition process_account_unfollows (fuel : nat) (server : Request -> Reply)
    (now : nat -> Z) (did : string) (tbl : Table) : option (Table * nat) :=
  match get_all_follows fuel server did with
  | Some current_follows => Some (apply_unfollows now did current_follows tbl)
  | None => None
  end.

(** The stored active follow-set of a subject: what the first query of the
    pass selects, as a set of DIDs. *)
Definition stored_active (did : string) (tbl : Table) : gset string :=
  list_to_set (following_did <$> select (is_active_of did) tbl).

End Detector.

(** ** The writers of [follows], as operations on the table *)

Module Core.
Import Api Store Detector.

(** No two rows for one ordered pair. *)
Definition unique_edges (tbl : Table) : Prop :=
  ∀ a b, (length (select (is_pair a b) tbl) ≤ 1)%nat.

(** [id] is the primary key. *)
Definition unique_ids (tbl : Table) : Prop := NoDup (id <$> tbl).

(** The operations of the sources that write [follows].  An unfollow pass
    is given the follow-set its fetch came back with. *)
Inductive Op :=
  | AddFollow (now : Z) (follower following : string)
  | StoreFollow (now : Z) (follower following : string)
  | Crawl (did : string) (follows followers : list (Z * string))
  | DetectUnfollows (now : nat -> Z) (did : string) (current_follows : gset string).

Definition step (tbl : Table) (op : Op) : Table :=
  match op with
  | AddFollow now a b => snd (add_follow_relationship now a b tbl)
  | StoreFollow now a b => store_follow now a b tbl
  | Crawl did follows followers => crawl did follows followers tbl
  | DetectUnfollows now did current => fst (apply_unfollows now did current tbl)
  end.

Definition run (ops : list Op) (tbl : Table) : Table := foldl step tbl ops.

(** A retired row stays where it is, with its key, its pair, its status
    and a recorded [unfollowed_at]. *)
Definition stays_retired (r r' : FollowRow) : Prop :=
  id r' = id r ∧ follower_did r' = follower_did r ∧
  following_did r' = following_did r ∧ follow_status r' = unfollowed ∧
  (is_Some (unfollowed_at r) → is_Some (unfollowed_at r')).

(** Every retired row of [tbl] is still retired in [tbl']. *)
Definition retired_kept (tbl tbl' : Table) : Prop :=
  ∀ i r, tbl !! i = Some r → follow_status r = unfollowed →
         ∃ r', tbl' !! i = Some r' ∧ stays_retired r r'.

(** Updates that leave the key and the pair of a row alone. *)
Definition keeps_pair (f : FollowRow -> FollowRow) : Prop :=
  ∀ r, id (f r) = id r ∧ follower_did (f r) = follower_did r ∧
       following_did (f r) = following_did r.

(** What the unfollow pass for [did] with observed set [F] does to a
    row: a stored active edge of [did] that was not observed is retired at
    one of the pass's clock readings, every other row is left as it is. *)
Definition retired_by (now : nat -> Z) (did : string) (F : gset string)
    (r r' : FollowRow) : Prop :=
  (is_active_of did r ∧ (following_did r ∉ F) ∧
   ∃ k, r' = mark_unfollowed (now k) r) ∨
  (¬ (is_active_of did r ∧ following_did r ∉ F) ∧ r' = r).

(** One reconciliation of a subject against an observed follow-set, put
    together from the two paths of the sources: every observed account goes
    through [add_follow_relationship] (the loop of [crawl]), then the
    unfollow pass retires the stored active edges that were not observed.
    The result is the table afterwards with the numbers of rows inserted
    and retired. *)
Definition reconcile (now : nat -> Z) (did : string)
    (observed : list (Z * string)) (tbl : Table) : Table * nat * nat :=
  let tbl1 := crawl did observed [] tbl in
  let inserted := (length tbl1 - length tbl)%nat in
  let '(tbl2, retired) :=
    apply_unfollows now did (list_to_set (snd <$> observed)) tbl1 in
  (tbl2, inserted, retired).

End Core.

(** ** The queue-driven worker ([network_traversal_db_queue.py]) *)

Module Worker.
Import Api.

(** *** State and effects *)

Record BlueskyAPIClient := mkClient {
  auth_token : option string;
  username : option string;
  password : option string;
  rate_limit_remaining : Z;
  rate_limit_reset : Z;
  token_created_at : option Z;
  token_expires_in : Z
}.

(** [BlueskyAPIClient.__init__] *)
Definition new_client (username password : option string) : BlueskyAPIClient :=
  mkClient None username password 100 0 None 3600.

Inductive CrawlStatus := completed | failed | error.

(** The calls the worker makes on the store. *)
Inductive StoreCall :=
  | StoreUser (did handle : string)
  | SetPriority (did : string) (crawl_priority : Z)
  | RpcGetAccountsToCrawl (limit_count min_interval_days : Z)
  | RpcGetRecommendedAccounts (limit_count max_priority : Z)
  | RpcUpdateCrawlPriorities
  | RpcProcessAccountFollows (account_did : string) (current_follows : list string)
  | RpcMarkAccountCrawled (account_did : string) (status : CrawlStatus).

(** Everything the worker can observe or change.  [requests] and
    [store_log] list the HTTP requests (with the time each was issued) and
    the store calls (with whether each succeeded), oldest first.
    [total_processed] is the local of [start] of that name, kept here so
    that it can be read on every path, as the [finally] clause that logs it
    does. *)
Record World := mkWorld {
  clock : Z;
  api_client : BlueskyAPIClient;
  requests : list (Z * Request);
  store_log : list (StoreCall * bool);
  draws : nat;
  total_processed : Z
}.

(** The surroundings: the remote server's answer to the [k]-th request,
    whether the [k]-th store call raises, what the queue procedures return
    when they are the [k]-th store call, the outcome of the [k]-th
    comparison [random.random() < p], the [k]-th jittered pacing delay
    [exploration_delay * (0.8 + 0.4 * random.random())], and the configured
    [exploration_delay]. *)
Record Env := mkEnv {
  server : nat -> Request -> Reply;
  store_raises : nat -> bool;
  due_accounts : nat -> list (string * string);
  recommended : nat -> list string;
  coin : nat -> bool;
  pacing : nat -> Z;
  exploration_delay : Z
}.

(** A computation returns, raises, or is still looping when its fuel ends. *)
Inductive Outcome (A : Type) :=
  | Ret (a : A)
  | Raised
  | Diverged.
Arguments Ret {A} a.
Arguments Raised {A}.
Arguments Diverged {A}.

Definition M (A : Type) : Type := World -> Outcome A * World.

Definition ret {A} (a : A) : M A := fun w => (Ret a, w).

Definition bind {A B} (m : M A) (f : A -> M B) : M B :=
  fun w =>
    match m w with
    | (Ret a, w') => f a w'
    | (Raised, w') => (Raised, w')
    | (Diverged, w') => (Diverged, w')
    end.

Notation "'let*' x ':=' m 'in' k" := (bind m (fun x => k))
  (at level 10, x name, m at level 100, k at level 200).

(** [try: body  except Exception: handler] *)
Definition try_except {A} (body handler : M A) : M A :=
  fun w =>
    match body w with
    | (Raised, w') => handler w'
    | r => r
    end.

Definition diverge {A} : M A := fun w => (Diverged, w).

(** [raise] *)
Definition raise {A} : M A := fun w => (Raised, w).

(** [time.time()] *)
Definition time : M Z := fun w => (Ret (clock w), w).

(** [await asyncio.sleep(d)] *)
Definition sleep (d : Z) : M unit :=
  fun w => (Ret tt, mkWorld (clock w + d) (api_client w) (requests w)
                            (store_log w) (draws w) (total_processed w)).

Definition get_client : M BlueskyAPIClient := fun w => (Ret (api_client w), w).

Definition set_client (c : BlueskyAPIClient) : M unit :=
  fun w => (Ret tt, mkWorld (clock w) c (requests w) (store_log w) (draws w)
                            (total_processed w)).

(** One HTTP exchange: the request is logged with the time it is issued. *)
Definition http (e : Env) (r : Request) : M Reply :=
  fun w =>
    (Ret (server e (length (requests w)) r),
     mkWorld (clock w) (api_client w) (requests w ++ [(clock w, r)])
             (store_log w) (draws w) (total_processed w)).

(** One store call ending in [.execute()]: it is logged, and raises when the
    store fails. *)
Definition store (e : Env) (c : StoreCall) : M nat :=
  fun w =>
    let k := length (store_log w) in
    let raises := store_raises e k in
    (if raises then Raised else Ret k,
     mkWorld (clock w) (api_client w) (requests w)
             (store_log w ++ [(c, negb raises)]) (draws w) (total_processed w)).

(** The next comparison [random.random() < p]. *)
Definition flip (e : Env) : M bool :=
  fun w => (Ret (coin e (draws w)),
            mkWorld (clock w) (api_client w) (requests w) (store_log w)
                    (S (draws w)) (total_processed w)).

(** The next jittered pacing delay. *)
Definition jitter (e : Env) : M Z :=
  fun w => (Ret (pacing e (draws w)),
            mkWorld (clock w) (api_client w) (requests w) (store_log w)
                    (S (draws w)) (total_processed w)).

Definition set_total (n : Z) : M unit :=
  fun w => (Ret tt, mkWorld (clock w) (api_client w) (requests w)
                            (store_log w) (draws w) n).

Definition get_total : M Z := fun w => (Ret (total_processed w), w).

(** [for x in xs: body x] *)
Fixpoint for_each {A} (xs : list A) (body : A -> M unit) : M unit :=
  match xs with
  | [] => ret tt
  | x :: rest => let* _ := body x in for_each rest body
  end.

(** *** [BlueskyAPIClient] *)

(** [BlueskyAPIClient.is_token_expired] at [current_time = time.time()]. *)
Definition is_token_expired (c : BlueskyAPIClient) (current_time : Z) : bool :=
  match token_created_at c with
  | Some created =>
      if negb (truthy (auth_token c)) || negb (truthy_num (Some created))
      then true
      else
        let buffer_time := 300 in
        let expiry_time := created + token_expires_in c - buffer_time in
        expiry_time <=? current_time
  | None => true
  end.

(** [BlueskyAPIClient._authenticate] *)
Definition authenticate (e : Env) : M unit :=
  let* c := get_client in
  let* response := http e (CreateSession (username c) (password c)) in
  match response with
  | Ok200 _ result =>
      let* now := time in
      set_client (mkClient (get_str "accessJwt" result) (username c)
                           (password c) (rate_limit_remaining c)
                           (rate_limit_reset c) (Some now) 3600)
  | Failed => ret tt
  end.

(** [BlueskyAPIClient.initialize] *)
Definition initialize (e : Env) : M unit :=
  let* c := get_client in
  if truthy (username c) && truthy (password c) && negb (truthy (auth_token c))
  then authenticate e
  else ret tt.

(** [BlueskyAPIClient._check_rate_limit] *)
Definition check_rate_limit (e : Env) : M unit :=
  let* c := get_client in
  let* now := time in
  let* _ :=
    if truthy (username c) && truthy (password c) && is_token_expired c now
    then authenticate e
    else ret tt in
  let* c := get_client in
  if rate_limit_remaining c <? 10 then
    let* now := time in
    let delay := Z.max 0 (rate_limit_reset c - now) in
    if 0 <? delay then sleep (delay + 1) else ret tt
  else ret tt.

(** [time.time() + n] turns the integer [n] into a float first, which
    raises [OverflowError] when [n] rounds to more than the largest
    double: from [2 ^ 1024 - 2 ^ 970] on, in either direction. *)
Definition float_range (n : Z) : bool := Z.abs n <? 2 ^ 1024 - 2 ^ 970.

(** The client after [_update_rate_limit(response)] at time [now], for
    headers on which the method returns ([reset_overflow] below is the
    other case).  The first assignment is overwritten when the second
    [int()] raises [ValueError], so the [except] branch decides both
    fields. *)
Definition updated_rate_limit (headers : gmap string HeaderVal) (now : Z)
    (c : BlueskyAPIClient) : BlueskyAPIClient :=
  let set remaining reset :=
    mkClient (auth_token c) (username c) (password c) remaining reset
             (token_created_at c) (token_expires_in c) in
  if bool_decide ("ratelimit-limit" ∈ dom headers) then
    match py_int (default (HInt 100) (headers !! "ratelimit-remaining")),
          py_int (default (HInt 0) (headers !! "ratelimit-reset")) with
    | Some remaining, Some reset => set remaining (now + reset)
    | _, _ => set 10 (now + 60)
    end
  else c.

(** The case in which [_update_rate_limit] does not return: both values
    parse, and the reset is out of float range, so that the addition in the
    second assignment raises [OverflowError], which
    [except (ValueError, TypeError)] lets through.  The result is the
    remaining count, which the first assignment has stored by then. *)
Definition reset_overflow (headers : gmap string HeaderVal) : option Z :=
  if bool_decide ("ratelimit-limit" ∈ dom headers) then
    match py_int (default (HInt 100) (headers !! "ratelimit-remaining")),
          py_int (default (HInt 0) (headers !! "ratelimit-reset")) with
    | Some remaining, Some reset =>
        if float_range reset then None else Some remaining
    | _, _ => None
    end
  else None.

(** [self.rate_limit_remaining = remaining] *)
Definition set_remaining (remaining : Z) (c : BlueskyAPIClient)
    : BlueskyAPIClient :=
  mkClient (auth_token c) (username c) (password c) remaining
           (rate_limit_reset c) (token_created_at c) (token_expires_in c).

(** [BlueskyAPIClient._update_rate_limit]: it stores the remaining count
    and raises when the reset overflows, and returns with both fields set
    otherwise. *)
Definition update_rate_limit (headers : gmap string HeaderVal) : M unit :=
  let* c := get_client in
  let* now := time in
  match reset_overflow headers with
  | Some remaining =>
      let* _ := set_client (set_remaining remaining c) in
      raise
  | None => set_client (updated_rate_limit headers now c)
  end.

(** [BlueskyAPIClient._get_profile_details].  A status other than 200 falls
    through to [return None]; so does whatever is raised inside the
    [try]. *)
Definition get_profile_details (e : Env) (did : option string)
    : M (option (gmap string Value)) :=
  match did with
  | Some d =>
      if truthy (Some d) then
        let* _ := check_rate_limit e in
        try_except
          (let* response := http e (GetProfile d) in
           match response with
           | Ok200 headers result =>
               let* _ := update_rate_limit headers in ret (Some result)
           | Failed => ret None
           end)
          (ret None)
      else ret None
  | None => ret None
  end.

(** [BlueskyAPIClient.get_profile].  [result.update(profile_details)] lets
    the keys of the details win. *)
Definition get_profile (e : Env) (handle : string)
    : M (option (gmap string Value)) :=
  let* _ := initialize e in
  let* _ := check_rate_limit e in
  try_except
    (let* response := http e (DescribeRepo handle) in
     match response with
     | Ok200 headers result =>
         let* profile_details := get_profile_details e (get_str "did" result) in
         let result' :=
           match profile_details with
           | Some details => if bool_decide (details = ∅) then result
                             else details ∪ result
           | None => result
           end in
         let* _ := update_rate_limit headers in
         ret (Some result')
     | Failed => ret None
     end)
    (ret None).

(** [BlueskyAPIClient.get_follows] with [limit=100]. *)
Definition get_follows (e : Env) (did : string) (cursor : option string)
    : M (gmap string Value) :=
  let* _ := initialize e in
  let* _ := check_rate_limit e in
  try_except
    (let* response :=
       http e (GetFollows did (if truthy cursor then cursor else None)) in
     match response with
     | Ok200 headers result => let* _ := update_rate_limit headers in ret result
     | Failed => ret {[ "follows" := VActors [] ]}
     end)
    (ret {[ "follows" := VActors [] ]}).

(** [BlueskyAPIClient.get_followers] with [limit=100]. *)
Definition get_followers (e : Env) (did : string) (cursor : option string)
    : M (gmap string Value) :=
  let* _ := initialize e in
  let* _ := check_rate_limit e in
  try_except
    (let* response :=
       http e (GetFollowers did (if truthy cursor then cursor else None)) in
     match response with
     | Ok200 headers result => let* _ := update_rate_limit headers in ret result
     | Failed => ret {[ "followers" := VActors [] ]}
     end)
    (ret {[ "followers" := VActors [] ]}).

(** *** [NetworkTraversal] *)

(** [NetworkTraversal._store_user]: its update, insert and upsert attempts
    are one store call here; whatever they raise is caught and logged. *)
Definition store_user (e : Env) (did handle : string) : M unit :=
  try_except (let* _ := store e (StoreUser did handle) in ret tt) (ret tt).

(** The [for follow in follows] loop of [_collect_all_follows]. *)
Fixpoint collect_page (e : Env) (follows : list Actor)
    (follows_dids : list string) : M (list string) :=
  match follows with
  | [] => ret follows_dids
  | follow :: rest =>
      match actor_did follow, actor_handle follow with
      | Some following_did, Some following_handle =>
          if truthy (Some following_did) && truthy (Some following_handle)
          then
            let* _ := store_user e following_did following_handle in
            collect_page e rest (follows_dids ++ [following_did])
          else collect_page e rest follows_dids
      | _, _ => collect_page e rest follows_dids
      end
  end.

(** The [while True] loop of [_collect_all_follows], one page per unit of
    fuel. *)
Fixpoint collect_all_follows_loop (e : Env) (fuel : nat) (did : string)
    (cursor : option string) (follows_dids : list string) : M (list string) :=
  match fuel with
  | O => diverge
  | S fuel' =>
      let* follows_data := get_follows e did cursor in
      let follows := get_actors "follows" follows_data in
      match follows with
      | [] => ret follows_dids
      | _ :: _ =>
          let* follows_dids' := collect_page e follows follows_dids in
          let cursor' := get_str "cursor" follows_data in
          if negb (truthy cursor') then ret follows_dids'
          else
            let* _ := sleep (exploration_delay e) in
            collect_all_follows_loop e fuel' did cursor' follows_dids'
      end
  end.

(** [NetworkTraversal._collect_all_follows] *)
Definition collect_all_follows (e : Env) (fuel : nat) (did : string)
    : M (list string) :=
  collect_all_follows_loop e fuel did None [].

(** The [for follower in followers] loop of [_collect_some_followers]. *)
Definition sample_follower (e : Env) (follower : Actor) : M unit :=
  match actor_did follower, actor_handle follower with
  | Some follower_did, Some follower_handle =>
      if truthy (Some follower_did) && truthy (Some follower_handle) then
        let* _ := store_user e follower_did follower_handle in
        let* chosen := flip e in
        if chosen then
          let* _ := store e (SetPriority follower_did 50) in ret tt
        else ret tt
      else ret tt
  | _, _ => ret tt
  end.

(** The [while pages < max_pages] loop of [_collect_some_followers];
    [pages_left] is [max_pages - pages]. *)
Fixpoint collect_some_followers_loop (e : Env) (pages_left : nat)
    (did : string) (cursor : option string) : M unit :=
  match pages_left with
  | O => ret tt
  | S pages_left' =>
      let* followers_data := get_followers e did cursor in
      let followers := get_actors "followers" followers_data in
      match followers with
      | [] => ret tt
      | _ :: _ =>
          let* _ := for_each followers (sample_follower e) in
          let cursor' := get_str "cursor" followers_data in
          if negb (truthy cursor') then ret tt
          else
            let* _ := sleep (exploration_delay e) in
            collect_some_followers_loop e pages_left' did cursor'
      end
  end.

(** [NetworkTraversal._collect_some_followers] with [max_pages=3]. *)
Definition collect_some_followers (e : Env) (did : string) : M unit :=
  collect_some_followers_loop e 3 did None.

(** [not profile] for [None] or a dictionary. *)
Definition no_profile (profile : option (gmap string Value)) : bool :=
  match profile with
  | None => true
  | Some p => bool_decide (p = ∅)
  end.

(** [NetworkTraversal._process_account] *)
Definition process_account (e : Env) (fuel : nat) (did handle : string)
    : M unit :=
  try_except
    (let* profile := get_profile e handle in
     if no_profile profile then
       let* _ := store e (RpcMarkAccountCrawled did failed) in
       ret tt
     else
       let* _ := store_user e did handle in
       let* follows_dids := collect_all_follows e fuel did in
       let* sampled := flip e in
       let* _ := if sampled then collect_some_followers e did else ret tt in
       let* _ := store e (RpcProcessAccountFollows did follows_dids) in
       let* _ := store e (RpcMarkAccountCrawled did completed) in
       ret tt)
    (try_except
       (let* _ := store e (RpcMarkAccountCrawled did error) in ret tt)
       (ret tt)).

(** [NetworkTraversal._get_next_accounts] *)
Definition get_next_accounts (e : Env) (limit min_interval_days : Z)
    : M (list (string * string)) :=
  try_except
    (let* k := store e (RpcGetAccountsToCrawl limit min_interval_days) in
     ret (due_accounts e k))
    (ret []).

(** [NetworkTraversal._add_recommended_accounts] *)
Definition add_recommended_accounts (e : Env) : M bool :=
  try_except
    (let* k := store e (RpcGetRecommendedAccounts 20 80) in
     match recommended e k with
     | [] => ret false
     | data =>
         let* _ := for_each data (fun did =>
                     let* _ := store e (SetPriority did 70) in ret tt) in
         ret true
     end)
    (ret false).

(** [NetworkTraversal._update_account_priorities] *)
Definition update_account_priorities (e : Env) : M unit :=
  try_except (let* _ := store e RpcUpdateCrawlPriorities in ret tt) (ret tt).

(** ['.' in handle] *)
Fixpoint has_dot (handle : string) : bool :=
  match handle with
  | EmptyString => false
  | String c rest => Ascii.eqb c "."%char || has_dot rest
  end.

(** [NetworkTraversal._add_seed_accounts] *)
Definition add_seed_accounts (e : Env) (handles : list string) : M unit :=
  for_each handles (fun handle =>
    try_except
      (if negb (has_dot handle) then ret tt
       else
         let* profile := get_profile e handle in
         match profile with
         | Some p =>
             if no_profile profile then ret tt
             else
               match get_str "did" p with
               | Some did =>
                   if truthy (Some did) then
                     let* _ := store_user e did handle in
                     let* _ := store e (SetPriority did 100) in
                     ret tt
                   else ret tt
               | None => ret tt
               end
         | None => ret tt
         end)
      (ret tt)).

(** The body of [for account in accounts] in [start]. *)
Definition visit (e : Env) (page_fuel : nat) (account : string * string)
    : M unit :=
  let* _ := process_account e page_fuel (fst account) (snd account) in
  let* n := get_total in
  let* _ := set_total (n + 1) in
  let* delay := jitter e in
  sleep delay.

(** The [while total_processed < max_accounts] loop of [start], one
    iteration per unit of fuel. *)
Fixpoint main_loop (e : Env) (fuel page_fuel : nat)
    (batch_size max_accounts min_interval_days : Z) : M unit :=
  match fuel with
  | O => diverge
  | S fuel' =>
      let* total := get_total in
      if total <? max_accounts then
        let* accounts := get_next_accounts e batch_size min_interval_days in
        match accounts with
        | [] =>
            let* added := add_recommended_accounts e in
            if added then
              main_loop e fuel' page_fuel batch_size max_accounts
                        min_interval_days
            else ret tt
        | _ :: _ =>
            let* _ := for_each accounts (visit e page_fuel) in
            let* total' := get_total in
            let* _ :=
              if Z.modulo total' 50 =? 0 then update_account_priorities e
              else ret tt in
            main_loop e fuel' page_fuel batch_size max_accounts
                      min_interval_days
        end
      else ret tt
  end.

(** [NetworkTraversal.start]; the result is the [total_processed] that the
    [finally] clause logs. *)
Definition start (e : Env) (fuel page_fuel : nat) (seed_handles : list string)
    (max_accounts min_interval_days : Z) : M Z :=
  let* _ :=
    match seed_handles with
    | [] => ret tt
    | _ :: _ => add_seed_accounts e seed_handles
    end in
  let* _ := set_total 0 in
  let batch_size := Z.min 10 max_accounts in
  let* _ := main_loop e fuel page_fuel batch_size max_accounts
                      min_interval_days in
  get_total.

(** *** What a call adds to the request log *)

Definition is_session (r : Request) : bool :=
  match r with
  | CreateSession _ _ => true
  | _ => false
  end.

(** [new] extends [old], and every request added is a session request or
    was issued at time [T] or later. *)
Definition waits_until (T : Z) (old new : list (Z * Request)) : Prop :=
  ∃ added, new = old ++ added ∧
           ∀ t r, (t, r) ∈ added → is_session r = true ∨ T ≤ t.

(** A computation that leaves the count of [start] alone, however it ends. *)
Definition keeps_total {A} (m : M A) : Prop :=
  ∀ w, total_processed (snd (m w)) = total_processed w.

(** A computation that ends, by returning or by raising, whatever fuel
    its callers have. *)
Definition settles {A} (m : M A) : Prop := ∀ w, fst (m w) ≠ Diverged.


(** The budget is under ten with its reset at [T] or later, or the clock
    has reached [T] already. *)
Definition held_back (T : Z) (w : World) : Prop :=
  (rate_limit_remaining (api_client w) < 10 ∧
   T ≤ rate_limit_reset (api_client w)) ∨ T ≤ clock w.

(** The token a client holds: the token itself, when it was created and
    how long it is taken to last. *)
Definition token (c : BlueskyAPIClient) : option string * option Z * Z :=
  (auth_token c, token_created_at c, token_expires_in c).

(** The token refresh of [_check_rate_limit] is due. *)
Definition refresh_due (c : BlueskyAPIClient) (now : Z) : bool :=
  truthy (username c) && truthy (password c) && is_token_expired c now.

End Worker.

(** ** Concrete tables, servers and worlds *)

Module Scenarios.
Import Api Store Detector Core Worker.

(** A subject with one stored edge, and a server whose single page lists
    that account and one more. *)
Definition one_edge : Table := run [AddFollow 0 "did:x" "did:a"] [].

Definition two_follows (r : Request) : Reply :=
  match r with
  | GetFollows _ None =>
      Ok200 ∅ {[ "follows" := VActors [mkActor (Some "did:a") (Some "a.test");
                                       mkActor (Some "did:b") (Some "b.test")] ]}
  | _ => Failed
  end.

(** A subject with two stored edges, and a server whose single page lists
    only the second. *)
Definition two_edges : Table :=
  run [AddFollow 0 "did:x" "did:a"; AddFollow 1 "did:x" "did:b"] [].

Definition one_follow (r : Request) : Reply :=
  match r with
  | GetFollows _ None =>
      Ok200 ∅ {[ "follows" := VActors [mkActor (Some "did:b") (Some "b.test")] ]}
  | _ => Failed
  end.

(** A client signed in at time 1000, whose token is refreshed from 4300 on. *)
Definition signed_in : BlueskyAPIClient :=
  mkClient (Some "jwt") (Some "me.test") (Some "secret") 100 0 (Some 1000) 3600.


(** Rate-limit headers whose remaining count is not a number. *)
Definition malformed_headers : gmap string HeaderVal :=
  {[ "ratelimit-limit" := HInt 3000; "ratelimit-remaining" := HBad ]}.

(** Surroundings in which every request is answered with the given headers
    and an empty object, the store never fails and the queue is empty. *)
Definition answering (headers : gmap string HeaderVal) : Env :=
  mkEnv (fun _ _ => Ok200 headers ∅) (fun _ => false) (fun _ => [])
        (fun _ => []) (fun _ => false) (fun _ => 2) 2.

Definition world_at (now : Z) (c : BlueskyAPIClient) : World :=
  mkWorld now c [] [] 0 0.

(** Surroundings in which every session request is answered with the token
    [jwt2] and every other request with an empty object. *)
Definition renewing : Env :=
  mkEnv (fun _ r =>
           match r with
           | CreateSession _ _ => Ok200 ∅ {[ "accessJwt" := VStr "jwt2" ]}
           | _ => Ok200 ∅ ∅
           end)
        (fun _ => false) (fun _ => []) (fun _ => []) (fun _ => false)
        (fun _ => 2) 2.

(** An account as it appears in a follows page. *)
Definition listed (did handle : string) : Actor :=
  mkActor (Some did) (Some handle).

(** Surroundings of one account that follows [did:a] and [did:b], listed on
    two pages: the profile requests succeed, the first follows page holds
    [did:a] and the cursor [c1], and the request for the second page is
    answered with [second]. *)
Definition two_pages (second : Reply) : Env :=
  mkEnv (fun _ r =>
           match r with
           | DescribeRepo _ => Ok200 ∅ {[ "did" := VStr "did:x" ]}
           | GetProfile _ => Ok200 ∅ {[ "handle" := VStr "x.test" ]}
           | GetFollows _ None =>
               Ok200 ∅ {[ "follows" := VActors [listed "did:a" "a.test"];
                          "cursor" := VStr "c1" ]}
           | GetFollows _ (Some _) => second
           | _ => Failed
           end)
        (fun _ => false) (fun _ => []) (fun _ => []) (fun _ => false)
        (fun _ => 2) 2.

Definition second_page : Reply :=
  Ok200 ∅ {[ "follows" := VActors [listed "did:b" "b.test"] ]}.

(** Surroundings in which no handle resolves and the queue always hands
    out ten accounts. *)
Definition busy_queue : Env :=
  mkEnv (fun _ _ => Failed) (fun _ => false)
        (fun _ => replicate 10 ("did:q", "q.test")) (fun _ => [])
        (fun _ => false) (fun _ => 2) 2.

End Scenarios.

(** ** The accounts table ([db_service.py]) *)

Module Accounts.

(** One row of [bluesky_accounts], with the columns [DatabaseService]
    writes. *)
Record Account := mkAccount {
  acc_did : string;
  acc_handle : string;
  display_name : option string;
  description : option string;
  avatar_url : option string
}.

(** [.update({"handle": handle})] on one row. *)
Definition set_handle (handle : string) (a : Account) : Account :=
  mkAccount (acc_did a) handle (display_name a) (description a) (avatar_url a).

(** [profile_data.get(key)] for a dictionary whose values may be [None]. *)
Definition profile_get (key : string)
    (profile_data : gmap string (option string)) : option string :=
  default None (profile_data !! key).

(** The row [add_bluesky_account] inserts: [if profile_data:] is the
    truthiness of a dictionary. *)
Definition account_data (did handle : string)
    (profile_data : option (gmap string (option string))) : Account :=
  match profile_data with
  | Some p =>
      if bool_decide (p = ∅) then mkAccount did handle None None None
      else mkAccount did handle (profile_get "displayName" p)
                     (profile_get "description" p) (profile_get "avatar" p)
  | None => mkAccount did handle None None None
  end.

(** [DatabaseService.add_bluesky_account]: the returned row and the table
    afterwards.  The row of an account that exists is returned as it was
    read, before its handle is updated. *)
Definition add_bluesky_account (did handle : string)
    (profile_data : option (gmap string (option string)))
    (accounts : list Account) : option Account * list Account :=
  match filter (fun a => acc_did a = did) accounts with
  | account :: _ =>
      (Some account,
       if decide (acc_handle account = handle) then accounts
       else (fun a => if decide (acc_did a = did) then set_handle handle a
                      else a) <$> accounts)
  | [] =>
      let row := account_data did handle profile_data in
      (Some row, accounts ++ [row])
  end.

(** No two rows for one DID. *)
Definition unique_dids (accounts : list Account) : Prop :=
  ∀ did, (length (filter (fun a => acc_did a = did) accounts) ≤ 1)%nat.

End Accounts.

(** ** Pages of a follow list *)

Module Pages.
Import Api Store Detector Worker.

(** The bodies a server hands out for the follow list of [did], from the
    request with [cursor] to the first body without a cursor, every request
    answered with a 200. *)
Inductive Chain (server : Request -> Reply) (did : string)
    : option string -> list (gmap string Value) -> Prop :=
  | chain_last cursor headers body :
      server (GetFollows did (if truthy cursor then cursor else None))
      = Ok200 headers body →
      truthy (get_str "cursor" body) = false →
      Chain server did cursor [body]
  | chain_next cursor headers body rest :
      server (GetFollows did (if truthy cursor then cursor else None))
      = Ok200 headers body →
      truthy (get_str "cursor" body) = true →
      Chain server did (get_str "cursor" body) rest →
      Chain server did cursor (body :: rest).

(** [d] is a non-empty DID listed in the [follows] array of [body]. *)
Definition lists (body : gmap string Value) (d : string) : Prop :=
  d ≠ "" ∧ ∃ a, a ∈ get_actors "follows" body ∧ actor_did a = Some d.

(** The columns the unfollow pass never writes. *)
Definition same_edge (r r' : FollowRow) : Prop :=
  id r' = id r ∧ follower_did r' = follower_did r ∧
  following_did r' = following_did r ∧ created_at r' = created_at r ∧
  last_verified_at r' = last_verified_at r.

(** The DIDs [_collect_all_follows] keeps from one page: those of the
    entries that carry both a DID and a handle. *)
Definition kept_dids (follows : list Actor) : list string :=
  omap (fun f =>
          match actor_did f, actor_handle f with
          | Some d, Some h =>
              if truthy (Some d) && truthy (Some h) then Some d else None
          | _, _ => None
          end) follows.

Definition is_followers_request (r : Request) : bool :=
  match r with
  | GetFollowers _ _ => true
  | _ => false
  end.

(** The number of followers requests in a request log. *)
Definition followers_requests (log : list (Z * Request)) : nat :=
  length (filter (fun tr => is_followers_request (snd tr) = true) log).

(** A computation from which no exception escapes. *)
Definition never_raises {A} (m : M A) : Prop := ∀ w, fst (m w) ≠ Raised.

(** A computation that sends no request, however it ends. *)
Definition sends_nothing {A} (m : M A) : Prop :=
  ∀ w, requests (snd (m w)) = requests w.

(** [UnfollowDetector.detect_unfollows], the loop over the accounts its
    query returned; each account comes with the clock of its pass.  [None]
    means that a fetch was still running when the fuel ended. *)
Fixpoint detect_unfollows (fuel : nat) (server : Request -> Reply)
    (accounts : list ((nat -> Z) * string)) (tbl : Table) : option Table :=
  match accounts with
  | [] => Some tbl
  | account :: rest =>
      match process_account_unfollows fuel server (fst account) (snd account)
                                      tbl with
      | Some (tbl', _) => detect_unfollows fuel server rest tbl'
      | None => None
      end
  end.

(** The follow list a complete enumeration of [pages] yields in the
    worker: the kept DIDs of every page, in order. *)
Definition listed_on (pages : list (gmap string Value)) : list string :=
  concat ((fun body => kept_dids (get_actors "follows" body)) <$> pages).

End Pages.

(** * Properties *)

(** ** Rows, selections and updates *)

Module StoreFacts.
Import Api Store Detector Core.

Lemma set_verified_keeps_pair now : keeps_pair (set_verified now).
Proof. by intros r. Qed.

Lemma mark_unfollowed_keeps_pair now : keeps_pair (mark_unfollowed now).
Proof. by intros r. Qed.

Lemma update_id_length f i tbl : length (update_id f i tbl) = length tbl.
Proof. unfold update_id. by rewrite length_fmap. Qed.

Lemma update_id_ids f i tbl :
  keeps_pair f → id <$> update_id f i tbl = id <$> tbl.
Proof.
  intros Hf. unfold update_id. rewrite <- list_fmap_compose.
  apply list_fmap_ext. intros _ r _. simpl.
  destruct (decide (id r = i)); [apply Hf | done].
Qed.

Lemma select_pair_update_id f i a b tbl :
  keeps_pair f →
  length (select (is_pair a b) (update_id f i tbl))
  = length (select (is_pair a b) tbl).
Proof.
  intros Hf. unfold select, update_id.
  induction tbl as [|r tbl IH]; [done|].
  rewrite fmap_cons, !filter_cons.
  assert (is_pair a b (if decide (id r = i) then f r else r) ↔ is_pair a b r)
    as Hiff.
  { destruct (decide (id r = i)); [|done].
    destruct (Hf r) as (_ & H1 & H2). unfold is_pair. by rewrite H1, H2. }
  destruct (decide (is_pair a b r)) as [Hr|Hr];
    destruct (decide (is_pair a b _)) as [Hr'|Hr']; simpl; tauto || lia.
Qed.

Lemma unique_edges_update_id f i tbl :
  keeps_pair f → unique_edges tbl → unique_edges (update_id f i tbl).
Proof.
  intros Hf Hu a b. rewrite select_pair_update_id by done. apply Hu.
Qed.

Lemma unique_edges_insert now a b tbl :
  select (is_pair a b) tbl = [] →
  unique_edges tbl → unique_edges (insert (new_row tbl a b now) tbl).
Proof.
  intros Hnone Hu a' b'. unfold select, insert in *.
  rewrite filter_app, length_app, filter_cons, filter_nil.
  destruct (decide (is_pair a' b' (new_row tbl a b now))) as [[Ha Hb]|_].
  - simpl in Ha, Hb. subst a' b'. rewrite Hnone. simpl. lia.
  - specialize (Hu a' b'). unfold select in Hu. simpl. lia.
Qed.

Lemma unique_edges_add_follow now a b tbl :
  unique_edges tbl → unique_edges (snd (add_follow_relationship now a b tbl)).
Proof.
  intros Hu. unfold add_follow_relationship.
  destruct (select (is_pair a b) tbl) eqn:Hsel; simpl; [|done].
  by apply unique_edges_insert.
Qed.

Lemma unique_edges_store_follow now a b tbl :
  unique_edges tbl → unique_edges (store_follow now a b tbl).
Proof.
  intros Hu. unfold store_follow.
  destruct (select (is_pair a b) tbl) eqn:Hsel.
  - by apply unique_edges_insert.
  - by apply unique_edges_update_id, Hu.
Qed.

Lemma unique_edges_crawl did follows followers tbl :
  unique_edges tbl → unique_edges (crawl did follows followers tbl).
Proof.
  unfold crawl. intros Hu.
  assert (∀ (g : Table → Z * string → Table) l t,
            (∀ t x, unique_edges t → unique_edges (g t x)) →
            unique_edges t → unique_edges (foldl g t l)) as Hfold.
  { intros g l. induction l as [|x l IH]; intros t Hg Ht; simpl; [done|].
    apply IH; [done|]. by apply Hg. }
  apply Hfold; [intros; by apply unique_edges_add_follow|].
  apply Hfold; [intros; by apply unique_edges_add_follow|done].
Qed.

Lemma unique_edges_mark_all now k db ds tbl :
  unique_edges tbl → unique_edges (mark_all now k db ds tbl).
Proof.
  revert k tbl. induction ds as [|d ds IH]; intros k tbl Hu; simpl; [done|].
  destruct (db !! d); [|done].
  apply IH. by apply unique_edges_update_id.
Qed.

Lemma unique_edges_step tbl op :
  unique_edges tbl → unique_edges (step tbl op).
Proof.
  intros Hu. destruct op; simpl.
  - by apply unique_edges_add_follow.
  - by apply unique_edges_store_follow.
  - by apply unique_edges_crawl.
  - by apply unique_edges_mark_all.
Qed.

Lemma unique_edges_run ops tbl :
  unique_edges tbl → unique_edges (run ops tbl).
Proof.
  unfold run. revert tbl. induction ops as [|op ops IH]; intros tbl Hu; [done|].
  simpl. by apply IH, unique_edges_step.
Qed.

(** *** Retired rows stay retired *)

Lemma stays_retired_refl r :
  follow_status r = unfollowed → stays_retired r r.
Proof. by intros H; repeat split. Qed.

Lemma retired_kept_refl tbl : retired_kept tbl tbl.
Proof. intros i r Hi Hr. exists r. split; [done|by apply stays_retired_refl]. Qed.

Lemma retired_kept_trans t1 t2 t3 :
  retired_kept t1 t2 → retired_kept t2 t3 → retired_kept t1 t3.
Proof.
  intros H12 H23 i r Hi Hr.
  destruct (H12 i r Hi Hr) as (r2 & Hi2 & Hid & Ha & Hb & Hs & Hat).
  destruct (H23 i r2 Hi2 Hs) as (r3 & Hi3 & Hid' & Ha' & Hb' & Hs' & Hat').
  exists r3. split; [done|]. unfold stays_retired.
  rewrite Hid', Ha', Hb'. repeat split; auto.
Qed.

Lemma retired_kept_insert r tbl : retired_kept tbl (insert r tbl).
Proof.
  intros i r0 Hi Hr. exists r0. split; [|by apply stays_retired_refl].
  unfold insert. by apply lookup_app_l_Some.
Qed.

Lemma retired_kept_update_id f i tbl :
  (∀ r, follow_status r = unfollowed → stays_retired r (f r)) →
  retired_kept tbl (update_id f i tbl).
Proof.
  intros Hf j r Hj Hr. unfold update_id. rewrite list_lookup_fmap, Hj. simpl.
  eexists. split; [done|].
  destruct (decide (id r = i)); [by apply Hf|by apply stays_retired_refl].
Qed.

Lemma set_verified_stays_retired now r :
  follow_status r = unfollowed → stays_retired r (set_verified now r).
Proof. by intros H; repeat split. Qed.

Lemma mark_unfollowed_stays_retired now r : stays_retired r (mark_unfollowed now r).
Proof. repeat split; simpl; eauto. Qed.

Lemma retired_kept_add_follow now a b tbl :
  retired_kept tbl (snd (add_follow_relationship now a b tbl)).
Proof.
  unfold add_follow_relationship.
  destruct (select (is_pair a b) tbl); simpl.
  - apply retired_kept_insert.
  - apply retired_kept_refl.
Qed.

Lemma retired_kept_store_follow now a b tbl :
  retired_kept tbl (store_follow now a b tbl).
Proof.
  unfold store_follow. destruct (select (is_pair a b) tbl).
  - apply retired_kept_insert.
  - apply retired_kept_update_id. intros. by apply set_verified_stays_retired.
Qed.

Lemma retired_kept_foldl {A} (g : Table → A → Table) l tbl :
  (∀ t x, retired_kept t (g t x)) → retired_kept tbl (foldl g tbl l).
Proof.
  intros Hg. revert tbl. induction l as [|x l IH]; intros tbl; simpl.
  - apply retired_kept_refl.
  - eapply retired_kept_trans; [apply Hg|apply IH].
Qed.

Lemma retired_kept_crawl did follows followers tbl :
  retired_kept tbl (crawl did follows followers tbl).
Proof.
  unfold crawl.
  eapply retired_kept_trans.
  - apply (retired_kept_foldl
             (fun t f => snd (add_follow_relationship (fst f) did (snd f) t))).
    intros. apply retired_kept_add_follow.
  - apply (retired_kept_foldl
             (fun t f => snd (add_follow_relationship (fst f) (snd f) did t))).
    intros. apply retired_kept_add_follow.
Qed.

Lemma retired_kept_mark_all now k db ds tbl :
  retired_kept tbl (mark_all now k db ds tbl).
Proof.
  revert k tbl. induction ds as [|d ds IH]; intros k tbl; simpl.
  - apply retired_kept_refl.
  - destruct (db !! d); [|apply retired_kept_refl].
    eapply retired_kept_trans; [|apply IH].
    apply retired_kept_update_id. intros. apply mark_unfollowed_stays_retired.
Qed.

Lemma retired_kept_step tbl op : retired_kept tbl (step tbl op).
Proof.
  destruct op; simpl.
  - apply retired_kept_add_follow.
  - apply retired_kept_store_follow.
  - apply retired_kept_crawl.
  - apply retired_kept_mark_all.
Qed.

Lemma retired_kept_run ops tbl : retired_kept tbl (run ops tbl).
Proof. apply retired_kept_foldl. intros. apply retired_kept_step. Qed.

(** *** The dictionary and the loop of the unfollow pass *)

Lemma short_list_unique {A} (l : list A) x y :
  (length l ≤ 1)%nat → x ∈ l → y ∈ l → x = y.
Proof.
  destruct l as [|z [|z' l]]; simpl; intros Hlen Hx Hy; [|..|lia].
  - by apply not_elem_of_nil in Hx.
  - apply list_elem_of_singleton in Hx, Hy. congruence.
Qed.

Lemma unique_edges_row tbl r r' :
  unique_edges tbl → r ∈ tbl → r' ∈ tbl →
  follower_did r = follower_did r' → following_did r = following_did r' →
  r = r'.
Proof.
  intros Hu Hr Hr' Ha Hb.
  apply (short_list_unique
           (select (is_pair (follower_did r) (following_did r)) tbl));
    [apply Hu|..]; unfold select; apply list_elem_of_filter; by split.
Qed.

Lemma unique_ids_row tbl r r' :
  unique_ids tbl → r ∈ tbl → r' ∈ tbl → id r = id r' → r = r'.
Proof.
  unfold unique_ids. induction tbl as [|x tbl IH]; intros Hnd Hr Hr' Hid.
  - by apply not_elem_of_nil in Hr.
  - rewrite fmap_cons in Hnd. apply NoDup_cons in Hnd as [Hx Hnd].
    apply elem_of_cons in Hr as [->|Hr]; apply elem_of_cons in Hr' as [->|Hr'].
    + done.
    + exfalso. apply Hx. rewrite Hid. by apply list_elem_of_fmap_2.
    + exfalso. apply Hx. rewrite <- Hid. by apply list_elem_of_fmap_2.
    + by apply IH.
Qed.

Lemma db_follows_fold_lookup rows (m : gmap string nat) d i :
  foldl (fun m r => <[following_did r := id r]> m) m rows !! d = Some i →
  m !! d = Some i ∨ ∃ r, r ∈ rows ∧ following_did r = d ∧ id r = i.
Proof.
  revert m. induction rows as [|r rows IH]; intros m; simpl; [by left|].
  intros H. apply IH in H as [H|(r' & Hin & Hd & Hi)].
  - destruct (decide (following_did r = d)) as [Heq|Hne].
    + subst d. rewrite lookup_insert_eq in H. right. exists r.
      split; [by left|]. split; [done|congruence].
    + rewrite lookup_insert_ne in H by done. by left.
  - right. exists r'. split; [by right|done].
Qed.

Lemma db_follows_of_lookup rows d i :
  db_follows_of rows !! d = Some i →
  ∃ r, r ∈ rows ∧ following_did r = d ∧ id r = i.
Proof.
  intros H. apply db_follows_fold_lookup in H as [H|H]; [|done].
  by rewrite lookup_empty in H.
Qed.

Lemma db_follows_fold_dom rows (m : gmap string nat) :
  dom (foldl (fun m r => <[following_did r := id r]> m) m rows)
  = dom m ∪ list_to_set (following_did <$> rows).
Proof.
  revert m. induction rows as [|r rows IH]; intros m; simpl.
  - set_solver.
  - rewrite IH, dom_insert_L. set_solver.
Qed.

Lemma dom_db_follows_of did tbl :
  dom (db_follows_of (select (is_active_of did) tbl)) = stored_active did tbl.
Proof.
  unfold db_follows_of, stored_active. rewrite db_follows_fold_dom.
  rewrite dom_empty_L. set_solver.
Qed.

Lemma elem_of_stored_active did tbl x :
  x ∈ stored_active did tbl ↔
  ∃ r, r ∈ tbl ∧ is_active_of did r ∧ following_did r = x.
Proof.
  unfold stored_active, select. rewrite elem_of_list_to_set, list_elem_of_fmap.
  split.
  - intros (r & -> & Hr). apply list_elem_of_filter in Hr as [Ha Hin]. eauto.
  - intros (r & Hin & Ha & <-). exists r. split; [done|].
    by apply list_elem_of_filter.
Qed.

Lemma db_follows_of_active did tbl r :
  unique_edges tbl → r ∈ tbl → is_active_of did r →
  db_follows_of (select (is_active_of did) tbl) !! following_did r = Some (id r).
Proof.
  intros Hu Hin Ha.
  assert (following_did r ∈ dom (db_follows_of (select (is_active_of did) tbl)))
    as Hdom.
  { rewrite dom_db_follows_of. apply elem_of_stored_active. eauto. }
  apply elem_of_dom in Hdom as [i Hi]. rewrite Hi. f_equal.
  apply db_follows_of_lookup in Hi as (r' & Hin' & Hd & <-).
  unfold select in Hin'. apply list_elem_of_filter in Hin' as [Ha' Hin'].
  f_equal. apply (unique_edges_row tbl); try done.
  destruct Ha as [-> _], Ha' as [-> _]. done.
Qed.

(** The loop of the pass is one function applied to every row. *)
Lemma mark_all_rows now db ds k :
  (∀ d, d ∈ ds → is_Some (db !! d)) →
  ∃ h : FollowRow → FollowRow,
    (∀ tbl, mark_all now k db ds tbl = h <$> tbl) ∧
    ∀ r, ((∃ d, d ∈ ds ∧ db !! d = Some (id r)) ∧
          ∃ j, h r = mark_unfollowed (now j) r) ∨
         ((¬ ∃ d, d ∈ ds ∧ db !! d = Some (id r)) ∧ h r = r).
Proof.
  revert k. induction ds as [|d ds IH]; intros k Hdom.
  - exists (fun r => r). split.
    + intros tbl. simpl. by rewrite list_fmap_id.
    + intros r. right. split; [|done]. intros (d & Hd & _).
      by apply not_elem_of_nil in Hd.
  - destruct (Hdom d) as [i Hi]; [by left|].
    destruct (IH (S k)) as (h & Hh & Hrow); [intros; apply Hdom; by right|].
    set (g := fun r => if decide (id r = i) then mark_unfollowed (now k) r else r).
    assert (∀ r, id (g r) = id r) as Hgid.
    { intros r. unfold g. by destruct (decide (id r = i)). }
    exists (h ∘ g). split.
    + intros tbl. simpl. rewrite Hi, Hh. unfold update_id.
      by rewrite list_fmap_compose.
    + intros r. simpl. destruct (Hrow (g r)) as [[(d' & Hd' & Hl) [j Hj]]|[Hno Hj]].
      * left. split.
        { exists d'. split; [by right|]. by rewrite <- Hgid. }
        exists j. rewrite Hj. unfold g. by destruct (decide (id r = i)).
      * rewrite Hj. destruct (decide (id r = i)) as [Heq|Hne].
        { left. split; [exists d; split; [by left|congruence]|].
          exists k. unfold g. by rewrite decide_True. }
        { right. split; [|unfold g; by rewrite decide_False].
          intros (d' & Hd' & Hl). apply elem_of_cons in Hd' as [->|Hd'].
          - congruence.
          - apply Hno. exists d'. split; [done|]. by rewrite Hgid. }
Qed.

(** What the pass does to the table, row by row. *)
Lemma apply_unfollows_rows now did F tbl :
  unique_ids tbl → unique_edges tbl →
  Forall2 (retired_by now did F) tbl (fst (apply_unfollows now did F tbl)).
Proof.
  intros Hids Hu. unfold apply_unfollows. simpl.
  set (db := db_follows_of (select (is_active_of did) tbl)).
  destruct (mark_all_rows now db (elements (dom db ∖ F)) 0) as (h & Hh & Hrow).
  { intros d Hd. apply elem_of_elements in Hd. apply elem_of_dom. set_solver. }
  rewrite Hh. apply Forall2_fmap_r, Forall_Forall2_diag, Forall_forall.
  intros r Hin. unfold retired_by.
  destruct (Hrow r) as [[(d & Hd & Hl) [j Hj]]|[Hno Hj]].
  - left. apply elem_of_elements, elem_of_difference in Hd as [_ HdF].
    apply db_follows_of_lookup in Hl as (r0 & Hin0 & Hd0 & Hid0).
    unfold select in Hin0. apply list_elem_of_filter in Hin0 as [Ha0 Hin0].
    assert (r0 = r) as -> by by apply (unique_ids_row tbl).
    subst d. eauto.
  - right. split; [|done]. intros [Ha HF]. apply Hno.
    exists (following_did r). split.
    + apply elem_of_elements, elem_of_difference. split; [|done].
      unfold db. rewrite dom_db_follows_of. apply elem_of_stored_active. eauto.
    + by apply db_follows_of_active.
Qed.

Lemma apply_unfollows_count now did F tbl :
  snd (apply_unfollows now did F tbl) = size (stored_active did tbl ∖ F).
Proof. unfold apply_unfollows. simpl. by rewrite dom_db_follows_of. Qed.

Lemma retired_by_active now did F tbl tbl' :
  Forall2 (retired_by now did F) tbl tbl' →
  stored_active did tbl' = stored_active did tbl ∩ F.
Proof.
  intros Hrows. apply set_eq. intros x.
  rewrite elem_of_intersection, !elem_of_stored_active. split.
  - intros (r' & Hin' & Ha' & <-).
    apply list_elem_of_lookup in Hin' as [i Hi].
    destruct (Forall2_lookup_r _ _ _ _ _ Hrows Hi) as (r & Hr & Hby).
    apply list_elem_of_lookup_2 in Hr.
    destruct Hby as [(_ & _ & k & ->)|[Hnot ->]].
    + by destruct Ha' as [_ ?].
    + split; [eauto|]. destruct (decide (following_did r ∈ F)); [done|].
      exfalso. by apply Hnot.
  - intros [(r & Hin & Ha & <-) HF].
    apply list_elem_of_lookup in Hin as [i Hi].
    destruct (Forall2_lookup_l _ _ _ _ _ Hrows Hi) as (r' & Hr' & Hby).
    apply list_elem_of_lookup_2 in Hr'.
    destruct Hby as [(_ & Hno & _)|[_ ->]]; [done|eauto].
Qed.

(** *** Keys stay unique *)

Lemma next_id_fresh tbl r : r ∈ tbl → (id r < next_id tbl)%nat.
Proof.
  unfold next_id. induction tbl as [|x tbl IH]; intros Hin.
  - by apply not_elem_of_nil in Hin.
  - rewrite fmap_cons. cbn [foldr].
    apply elem_of_cons in Hin as [->|Hin]; [lia|].
    specialize (IH Hin). lia.
Qed.

Lemma unique_ids_insert now a b tbl :
  unique_ids tbl → unique_ids (insert (new_row tbl a b now) tbl).
Proof.
  unfold unique_ids, insert. intros Hnd. rewrite fmap_app.
  apply NoDup_app. split; [done|]. split; [|apply NoDup_singleton].
  intros i Hi Hi'. simpl in Hi'. apply list_elem_of_singleton in Hi'. subst i.
  apply list_elem_of_fmap in Hi as (r & Hid & Hin).
  apply next_id_fresh in Hin. lia.
Qed.

Lemma unique_ids_update_id f i tbl :
  keeps_pair f → unique_ids tbl → unique_ids (update_id f i tbl).
Proof. intros Hf. unfold unique_ids. by rewrite update_id_ids. Qed.

Lemma unique_ids_add_follow now a b tbl :
  unique_ids tbl → unique_ids (snd (add_follow_relationship now a b tbl)).
Proof.
  intros Hu. unfold add_follow_relationship.
  destruct (select (is_pair a b) tbl); simpl; [|done].
  by apply unique_ids_insert.
Qed.

Lemma unique_ids_store_follow now a b tbl :
  unique_ids tbl → unique_ids (store_follow now a b tbl).
Proof.
  intros Hu. unfold store_follow. destruct (select (is_pair a b) tbl).
  - by apply unique_ids_insert.
  - by apply unique_ids_update_id.
Qed.

Lemma unique_ids_foldl {A} (g : Table → A → Table) l tbl :
  (∀ t x, unique_ids t → unique_ids (g t x)) →
  unique_ids tbl → unique_ids (foldl g tbl l).
Proof.
  intros Hg. revert tbl. induction l as [|x l IH]; intros tbl Ht; simpl; auto.
Qed.

Lemma unique_ids_crawl did follows followers tbl :
  unique_ids tbl → unique_ids (crawl did follows followers tbl).
Proof.
  intros Hu. unfold crawl.
  apply (unique_ids_foldl
           (fun t f => snd (add_follow_relationship (fst f) (snd f) did t)));
    [intros; by apply unique_ids_add_follow|].
  apply (unique_ids_foldl
           (fun t f => snd (add_follow_relationship (fst f) did (snd f) t)));
    [intros; by apply unique_ids_add_follow|done].
Qed.

Lemma unique_ids_mark_all now k db ds tbl :
  unique_ids tbl → unique_ids (mark_all now k db ds tbl).
Proof.
  revert k tbl. induction ds as [|d ds IH]; intros k tbl Hu; simpl; [done|].
  destruct (db !! d); [|done].
  apply IH. by apply unique_ids_update_id.
Qed.

Lemma unique_ids_step tbl op : unique_ids tbl → unique_ids (step tbl op).
Proof.
  intros Hu. destruct op; simpl.
  - by apply unique_ids_add_follow.
  - by apply unique_ids_store_follow.
  - by apply unique_ids_crawl.
  - by apply unique_ids_mark_all.
Qed.

Lemma unique_ids_run ops tbl : unique_ids tbl → unique_ids (run ops tbl).
Proof. apply unique_ids_foldl. intros. by apply unique_ids_step. Qed.

Lemma unique_ids_nil : unique_ids [].
Proof. apply NoDup_nil_2. Qed.

Lemma unique_edges_nil : unique_edges [].
Proof. intros a b. simpl. lia. Qed.

(** *** Observed pairs after the insert loop *)

Lemma add_follow_grows now a b tbl r :
  r ∈ tbl → r ∈ snd (add_follow_relationship now a b tbl).
Proof.
  intros Hin. unfold add_follow_relationship.
  destruct (select (is_pair a b) tbl); simpl; [|done].
  unfold insert. apply elem_of_app. by left.
Qed.

Lemma add_follow_has_pair now a b tbl :
  ∃ r, r ∈ snd (add_follow_relationship now a b tbl) ∧ is_pair a b r.
Proof.
  unfold add_follow_relationship.
  destruct (select (is_pair a b) tbl) as [|r rest] eqn:Hsel; simpl.
  - exists (new_row tbl a b now). split; [|done].
    unfold insert. apply elem_of_app. right. by apply list_elem_of_singleton.
  - assert (r ∈ select (is_pair a b) tbl) as Hr by (rewrite Hsel; by left).
    unfold select in Hr. apply list_elem_of_filter in Hr as [Hp Hin]. eauto.
Qed.

Lemma add_follow_present now a b tbl r :
  r ∈ tbl → is_pair a b r → add_follow_relationship now a b tbl
                             = (head (select (is_pair a b) tbl), tbl).
Proof.
  intros Hin Hp. unfold add_follow_relationship.
  destruct (select (is_pair a b) tbl) as [|r0 rest] eqn:Hsel; [|done].
  exfalso. eapply filter_nil_not_elem_of; [exact Hsel|exact Hp|exact Hin].
Qed.

Lemma follows_loop_grows did (l : list (Z * string)) tbl r :
  r ∈ tbl →
  r ∈ foldl (fun t f => snd (add_follow_relationship (fst f) did (snd f) t)) tbl l.
Proof.
  revert tbl. induction l as [|f l IH]; intros tbl Hin; simpl; [done|].
  by apply IH, add_follow_grows.
Qed.

Lemma follows_loop_covers did (l : list (Z * string)) tbl f :
  f ∈ l →
  ∃ r, r ∈ foldl (fun t f => snd (add_follow_relationship (fst f) did (snd f) t))
                 tbl l ∧ is_pair did (snd f) r.
Proof.
  revert tbl. induction l as [|f0 l IH]; intros tbl Hin.
  - by apply not_elem_of_nil in Hin.
  - simpl. apply elem_of_cons in Hin as [->|Hin]; [|by apply IH].
    destruct (add_follow_has_pair (fst f0) did (snd f0) tbl) as (r & Hr & Hp).
    exists r. split; [|done]. by apply follows_loop_grows.
Qed.

Lemma follows_loop_noop did (l : list (Z * string)) tbl :
  (∀ f, f ∈ l → ∃ r, r ∈ tbl ∧ is_pair did (snd f) r) →
  foldl (fun t f => snd (add_follow_relationship (fst f) did (snd f) t)) tbl l
  = tbl.
Proof.
  induction l as [|f l IH]; intros Hall; simpl; [done|].
  destruct (Hall f) as (r & Hin & Hp); [by left|].
  rewrite (add_follow_present _ _ _ _ r) by done. simpl.
  apply IH. intros f' Hf'. apply Hall. by right.
Qed.

Lemma retired_by_keeps_pair now did F tbl tbl' a b r :
  Forall2 (retired_by now did F) tbl tbl' →
  r ∈ tbl → is_pair a b r → ∃ r', r' ∈ tbl' ∧ is_pair a b r'.
Proof.
  intros Hrows Hin Hp. apply list_elem_of_lookup in Hin as [i Hi].
  destruct (Forall2_lookup_l _ _ _ _ _ Hrows Hi) as (r' & Hr' & Hby).
  exists r'. split; [by eapply list_elem_of_lookup_2|].
  destruct Hby as [(_ & _ & k & ->)|[_ ->]]; done.
Qed.

End StoreFacts.

(** ** Reconciliation of stored edges *)

Module Reconciliation.
Import Api Store Detector Core Scenarios StoreFacts.

(** C1, as the claim states it, fails: the pass never inserts, so an
    observed account that has no stored edge is still absent from the
    stored active set afterwards.  With stored set [{did:a}] and observed
    set [{did:a, did:b}] nothing is retired and the stored active set stays
    [{did:a}]. *)
Lemma unfollow_pass_leaves_new_follows_out :
  unique_ids one_edge ∧ unique_edges one_edge ∧
  stored_active "did:x" one_edge = {[ "did:a" ]} ∧
  get_all_follows 1 two_follows "did:x" = Some {[ "did:a"; "did:b" ]} ∧
  ∃ tbl',
    process_account_unfollows 1 two_follows (fun _ => 9) "did:x" one_edge
      = Some (tbl', 0%nat) ∧
    stored_active "did:x" tbl' ≠ {[ "did:a"; "did:b" ]}.
Proof.
  split; [apply unique_ids_run, unique_ids_nil|].
  split; [apply unique_edges_run, unique_edges_nil|].
  split; [by vm_compute|]. split; [by vm_compute|].
  eexists. split; [by vm_compute|].
  apply (proj1 (bool_decide_eq_false _)). by vm_compute.
Qed.

(** C1, as amended.  For a subject whose stored active follow-set is [S],
    a pass whose fetch came back with [F] returns, reports [|S − F|]
    detected unfollows, retires exactly the stored active edges of the
    subject towards accounts outside [F] (status [unfollowed], with
    [unfollowed_at] set to a clock reading of the pass), leaves every other
    row as it was, so that the edges in [S ∩ F] stay active, and afterwards
    the stored active follow-set of the subject is [S ∩ F]. *)
Theorem unfollow_pass_diff fuel server now did tbl F :
  unique_ids tbl → unique_edges tbl →
  get_all_follows fuel server did = Some F →
  ∃ tbl',
    process_account_unfollows fuel server now did tbl
      = Some (tbl', size (stored_active did tbl ∖ F)) ∧
    Forall2 (retired_by now did F) tbl tbl' ∧
    stored_active did tbl' = stored_active did tbl ∩ F.
Proof.
  intros Hids Hu Hfetch.
  exists (fst (apply_unfollows now did F tbl)).
  pose proof (apply_unfollows_rows now did F tbl Hids Hu) as Hrows.
  split; [|split; [done|by eapply retired_by_active]].
  unfold process_account_unfollows. rewrite Hfetch.
  rewrite <- apply_unfollows_count with (now := now).
  by destruct (apply_unfollows now did F tbl).
Qed.

Lemma unfollow_pass_diff_witness :
  ∃ tbl',
    process_account_unfollows 1 one_follow (fun _ => 9) "did:x" two_edges
      = Some (tbl', size (stored_active "did:x" two_edges ∖ {[ "did:b" ]})) ∧
    Forall2 (retired_by (fun _ => 9) "did:x" {[ "did:b" ]}) two_edges tbl' ∧
    stored_active "did:x" tbl' = stored_active "did:x" two_edges ∩ {[ "did:b" ]}.
Proof.
  apply (unfollow_pass_diff 1 one_follow (fun _ => 9) "did:x" two_edges).
  - apply unique_ids_run, unique_ids_nil.
  - apply unique_edges_run, unique_edges_nil.
  - by vm_compute.
Defined.

(** C3.  Whatever sequence of edge insertions, crawls and unfollow passes
    runs on a table with at most one row per ordered pair, and so on the
    empty table, the table afterwards has at most one row per ordered pair;
    and [add_follow_relationship] on a pair that already has a row returns
    the first such row and leaves the table as it was. *)
Theorem at_most_one_edge_per_pair :
  (∀ ops tbl, unique_edges tbl → unique_edges (run ops tbl)) ∧
  (∀ ops, unique_edges (run ops [])) ∧
  (∀ now a b tbl r rest,
     select (is_pair a b) tbl = r :: rest →
     add_follow_relationship now a b tbl = (Some r, tbl)).
Proof.
  split; [apply unique_edges_run|].
  split; [intros; apply unique_edges_run, unique_edges_nil|].
  intros now a b tbl r rest Hsel. unfold add_follow_relationship.
  by rewrite Hsel.
Qed.

Lemma at_most_one_edge_per_pair_witness :
  unique_edges (run [Crawl "did:x" [(1, "did:a"); (2, "did:a")] [(3, "did:a")];
                     DetectUnfollows (fun _ => 9) "did:x" ∅;
                     AddFollow 10 "did:x" "did:a"] one_edge) ∧
  add_follow_relationship 10 "did:x" "did:a" one_edge
  = (Some (mkRow 1 "did:x" "did:a" active 0 0 None), one_edge).
Proof.
  destruct at_most_one_edge_per_pair as (Hrun & Hempty & Hadd). split.
  - apply Hrun. apply Hempty.
  - apply (Hadd 10 "did:x" "did:a" one_edge _ []). reflexivity.
Defined.

(** C4.  Whatever sequence of edge insertions, re-observations, crawls and
    unfollow passes runs, a row that was [unfollowed] before is, at the same
    place in the table afterwards, a row with the same key and pair that is
    still [unfollowed], and its [unfollowed_at] is still set if it was. *)
Theorem unfollowed_never_reactivated ops tbl i r :
  tbl !! i = Some r → follow_status r = unfollowed →
  ∃ r', run ops tbl !! i = Some r' ∧ stays_retired r r'.
Proof. apply retired_kept_run. Qed.

Lemma unfollowed_never_reactivated_witness :
  ∃ r',
    run [AddFollow 20 "did:x" "did:a"; StoreFollow 21 "did:x" "did:a";
         Crawl "did:x" [(22, "did:a")] [];
         DetectUnfollows (fun _ => 23) "did:x" {[ "did:a" ]}]
        (run [DetectUnfollows (fun _ => 9) "did:x" ∅] one_edge) !! 0%nat
    = Some r' ∧
    stays_retired (mkRow 1 "did:x" "did:a" unfollowed 0 0 (Some 9)) r'.
Proof.
  apply (unfollowed_never_reactivated _ _ 0%nat
           (mkRow 1 "did:x" "did:a" unfollowed 0 0 (Some 9))).
  - by vm_compute.
  - reflexivity.
Defined.

(** C9.  On a table with unique keys and at most one row per pair, once a
    reconciliation of a subject against an observed follow-set has run, a
    second one against the same observed set, at whatever later clock
    readings, inserts no row, retires no row and leaves the table exactly
    as the first one left it. *)
Theorem reconcile_twice_changes_nothing now1 now2 did observed tbl :
  unique_ids tbl → unique_edges tbl →
  reconcile now2 did observed (fst (fst (reconcile now1 did observed tbl)))
  = (fst (fst (reconcile now1 did observed tbl)), 0%nat, 0%nat).
Proof.
  intros Hids Hu. unfold reconcile at 2 3.
  set (F := list_to_set (snd <$> observed) : gset string).
  set (tblA := crawl did observed [] tbl).
  assert (unique_ids tblA) as HidsA by by apply unique_ids_crawl.
  assert (unique_edges tblA) as HuA by by apply unique_edges_crawl.
  pose proof (apply_unfollows_rows now1 did F tblA HidsA HuA) as Hrows.
  destruct (apply_unfollows now1 did F tblA) as [tbl1 retired] eqn:Hpass.
  simpl in *. unfold reconcile.
  assert (crawl did observed [] tbl1 = tbl1) as Hcrawl.
  { unfold crawl. simpl. apply follows_loop_noop. intros f Hf.
    destruct (follows_loop_covers did observed tbl f Hf) as (r & Hr & Hp).
    eapply retired_by_keeps_pair; [exact Hrows|exact Hr|exact Hp]. }
  rewrite Hcrawl, Nat.sub_diag. fold F.
  assert (stored_active did tbl1 ∖ F = ∅) as Hgone.
  { rewrite (retired_by_active _ _ _ _ _ Hrows). set_solver. }
  unfold apply_unfollows. cbv zeta. rewrite dom_db_follows_of, Hgone.
  rewrite elements_empty, size_empty. reflexivity.
Qed.

Lemma reconcile_twice_changes_nothing_witness :
  reconcile (fun _ => 30) "did:x" [(20, "did:b"); (21, "did:c")]
    (fst (fst (reconcile (fun _ => 9) "did:x" [(20, "did:b"); (21, "did:c")]
                         two_edges)))
  = (fst (fst (reconcile (fun _ => 9) "did:x" [(20, "did:b"); (21, "did:c")]
                         two_edges)), 0%nat, 0%nat).
Proof.
  apply (reconcile_twice_changes_nothing (fun _ => 9) (fun _ => 30) "did:x"
           [(20, "did:b"); (21, "did:c")] two_edges).
  - apply unique_ids_run, unique_ids_nil.
  - apply unique_edges_run, unique_edges_nil.
Defined.

End Reconciliation.

(** ** The rate-limited client *)

Module ClientFacts.
Import Api Worker.

Lemma authenticate_spec e w :
  ∃ c',
    authenticate e w
    = (Ret tt,
       mkWorld (clock w) c'
               (requests w ++ [(clock w, CreateSession (username (api_client w))
                                                       (password (api_client w)))])
               (store_log w) (draws w) (total_processed w)) ∧
    rate_limit_remaining c' = rate_limit_remaining (api_client w) ∧
    rate_limit_reset c' = rate_limit_reset (api_client w).
Proof.
  destruct w as [clk c reqs log dr tot].
  unfold authenticate, bind, get_client, http, time, set_client, ret. simpl.
  destruct (server e (length reqs) _) as [hd result|]; simpl; eauto.
Qed.

(** [_check_rate_limit] returns; it sends the session request exactly when
    the refresh is due, touches nothing else but the clock, never turns the
    clock back, and with a budget under ten leaves it at the reset time or
    later. *)
Lemma check_rate_limit_spec e w :
  ∃ w',
    check_rate_limit e w = (Ret tt, w') ∧
    requests w'
    = requests w ++
      (if refresh_due (api_client w) (clock w)
       then [(clock w, CreateSession (username (api_client w))
                                     (password (api_client w)))]
       else []) ∧
    clock w ≤ clock w' ∧
    (rate_limit_remaining (api_client w) < 10 →
     rate_limit_reset (api_client w) ≤ clock w') ∧
    rate_limit_remaining (api_client w') = rate_limit_remaining (api_client w) ∧
    rate_limit_reset (api_client w') = rate_limit_reset (api_client w) ∧
    store_log w' = store_log w ∧ draws w' = draws w ∧
    total_processed w' = total_processed w.
Proof.
  unfold check_rate_limit, refresh_due.
  unfold bind at 1. unfold get_client at 1. unfold bind at 1. unfold time at 1.
  unfold bind at 1.
  assert (∃ w1,
    (if truthy (username (api_client w)) && truthy (password (api_client w))
        && is_token_expired (api_client w) (clock w)
     then authenticate e else ret tt) w = (Ret tt, w1) ∧
    requests w1 = requests w ++
      (if truthy (username (api_client w)) && truthy (password (api_client w))
          && is_token_expired (api_client w) (clock w)
       then [(clock w, CreateSession (username (api_client w))
                                     (password (api_client w)))]
       else []) ∧
    clock w1 = clock w ∧
    rate_limit_remaining (api_client w1) = rate_limit_remaining (api_client w) ∧
    rate_limit_reset (api_client w1) = rate_limit_reset (api_client w) ∧
    store_log w1 = store_log w ∧ draws w1 = draws w ∧
    total_processed w1 = total_processed w) as (w1 & -> & Hreq & Hclk & Hrem & Hrst & Hlog & Hdr & Htot).
  { destruct (_ && _ && _).
    - destruct (authenticate_spec e w) as (c' & -> & ? & ?). eexists.
      split; [done|]. simpl. done.
    - exists w. unfold ret. rewrite app_nil_r. done. }
  unfold bind, get_client, time, sleep, ret. simpl.
  rewrite Hrem, Hrst.
  destruct (rate_limit_remaining (api_client w) <? 10) eqn:Hlow.
  - destruct (0 <? Z.max 0 (rate_limit_reset (api_client w) - clock w1)) eqn:Hd.
    + eexists. split; [done|]. simpl. rewrite Hclk in *.
      apply Z.ltb_lt in Hd. repeat split; try done; lia.
    + exists w1. split; [done|]. rewrite Hclk in *. apply Z.ltb_ge in Hd.
      repeat split; try done; lia.
  - exists w1. split; [done|]. rewrite Hclk. apply Z.ltb_ge in Hlow.
    repeat split; try done; lia.
Qed.

Lemma initialize_spec e w :
  ∃ w',
    initialize e w = (Ret tt, w') ∧
    (truthy (auth_token (api_client w)) = true → w' = w) ∧
    requests w'
    = requests w ++
      (if truthy (username (api_client w)) && truthy (password (api_client w))
          && negb (truthy (auth_token (api_client w)))
       then [(clock w, CreateSession (username (api_client w))
                                     (password (api_client w)))]
       else []) ∧
    clock w' = clock w ∧
    rate_limit_remaining (api_client w') = rate_limit_remaining (api_client w) ∧
    rate_limit_reset (api_client w') = rate_limit_reset (api_client w) ∧
    store_log w' = store_log w ∧ draws w' = draws w ∧
    total_processed w' = total_processed w.
Proof.
  unfold initialize, bind, get_client.
  destruct (truthy (auth_token (api_client w))) eqn:Htok.
  - rewrite andb_false_r. exists w. unfold ret. by rewrite app_nil_r.
  - rewrite andb_true_r. destruct (_ && _).
    + destruct (authenticate_spec e w) as (c' & -> & ? & ?). eexists.
      split; [done|]. simpl. repeat split; done.
    + exists w. unfold ret. by rewrite app_nil_r.
Qed.

Lemma waits_until_refl T l : waits_until T l l.
Proof.
  exists []. split; [by rewrite app_nil_r|]. intros t r Hin.
  by apply not_elem_of_nil in Hin.
Qed.

Lemma waits_until_trans T l1 l2 l3 :
  waits_until T l1 l2 → waits_until T l2 l3 → waits_until T l1 l3.
Proof.
  intros (a1 & -> & H1) (a2 & -> & H2). exists (a1 ++ a2).
  split; [by rewrite app_assoc|]. intros t r Hin.
  apply elem_of_app in Hin as [Hin|Hin]; eauto.
Qed.

Lemma waits_until_session T l t u p :
  waits_until T l (l ++ [(t, CreateSession u p)]).
Proof.
  eexists. split; [done|]. intros t' r Hin.
  apply list_elem_of_singleton in Hin. left. by inversion Hin.
Qed.

Lemma waits_until_late T l t r : T ≤ t → waits_until T l (l ++ [(t, r)]).
Proof.
  intros Ht. eexists. split; [done|]. intros t' r' Hin.
  apply list_elem_of_singleton in Hin. right. by inversion Hin.
Qed.

Lemma waits_until_maybe_session T l (b : bool) t u p :
  waits_until T l (l ++ if b then [(t, CreateSession u p)] else []).
Proof.
  destruct b; [apply waits_until_session|].
  rewrite app_nil_r. apply waits_until_refl.
Qed.

(** The guard in front of every data request: what [initialize] and
    [_check_rate_limit] send are session requests, and they hand over at
    time [T] or later. *)
Lemma guard_spec T e w :
  held_back T w →
  ∃ w1 w2,
    initialize e w = (Ret tt, w1) ∧ check_rate_limit e w1 = (Ret tt, w2) ∧
    waits_until T (requests w) (requests w2) ∧ T ≤ clock w2 ∧
    store_log w2 = store_log w ∧ draws w2 = draws w ∧
    total_processed w2 = total_processed w.
Proof.
  intros Hheld.
  destruct (initialize_spec e w)
    as (w1 & Hinit & _ & Hreq1 & Hclk1 & Hrem1 & Hrst1 & Hlog1 & Hdr1 & Htot1).
  destruct (check_rate_limit_spec e w1)
    as (w2 & Hchk & Hreq2 & Hclk2 & Hlow & _ & _ & Hlog2 & Hdr2 & Htot2).
  exists w1, w2. split; [done|]. split; [done|]. split.
  { apply (waits_until_trans _ _ (requests w1)).
    - rewrite Hreq1. apply waits_until_maybe_session.
    - rewrite Hreq2. apply waits_until_maybe_session. }
  split; [|by rewrite Hlog2, Hdr2, Htot2].
  destruct Hheld as [[Hrem HT]|HT]; [|lia].
  rewrite Hrem1, Hrst1 in Hlow. specialize (Hlow Hrem). lia.
Qed.

Lemma update_rate_limit_spec headers w :
  reset_overflow headers = None →
  update_rate_limit headers w
  = (Ret tt, mkWorld (clock w)
                     (updated_rate_limit headers (clock w) (api_client w))
                     (requests w) (store_log w) (draws w) (total_processed w)).
Proof.
  intros Hfits. unfold update_rate_limit, bind, get_client, time. simpl.
  by rewrite Hfits.
Qed.

(** [_update_rate_limit] ends by returning or by raising, and changes
    nothing but the client, of which it leaves the credentials and the
    token alone. *)
Lemma update_rate_limit_cases headers w :
  ∃ c',
    (update_rate_limit headers w
     = (Ret tt, mkWorld (clock w) c' (requests w) (store_log w) (draws w)
                        (total_processed w)) ∨
     update_rate_limit headers w
     = (Raised, mkWorld (clock w) c' (requests w) (store_log w) (draws w)
                        (total_processed w))) ∧
    auth_token c' = auth_token (api_client w) ∧
    token_created_at c' = token_created_at (api_client w) ∧
    token_expires_in c' = token_expires_in (api_client w).
Proof.
  unfold update_rate_limit, bind, get_client, time, set_client, raise. simpl.
  destruct (reset_overflow headers) as [remaining|].
  - eexists. split; [by right|done].
  - eexists. split; [by left|]. unfold updated_rate_limit.
    repeat case_match; done.
Qed.

(** A 200 answer to a follows request whose reset is out of float range is
    dropped: the call returns the empty list, and of the answer only the
    remaining count has reached the client. *)
Lemma get_follows_reset_overflow e did cursor w headers body remaining :
  (∀ k, server e k (GetFollows did (if truthy cursor then cursor else None))
        = Ok200 headers body) →
  reset_overflow headers = Some remaining →
  ∃ w',
    get_follows e did cursor w = (Ret {[ "follows" := VActors [] ]}, w') ∧
    rate_limit_remaining (api_client w') = remaining.
Proof.
  intros Hsrv Hover.
  destruct (initialize_spec e w) as (w1 & Hinit & _).
  destruct (check_rate_limit_spec e w1) as (w2 & Hchk & _).
  unfold get_follows, bind at 1 2. rewrite Hinit, Hchk.
  unfold try_except, bind, http. rewrite Hsrv.
  unfold update_rate_limit, bind, get_client, time, set_client, raise.
  rewrite Hover. simpl. eauto.
Qed.

(** Splits on how the [_update_rate_limit] in the goal ends. *)
Ltac answered :=
  match goal with
  | |- context [update_rate_limit ?h ?w0] =>
      let c := fresh "c" in
      let Hc := fresh "Hc" in
      destruct (update_rate_limit_cases h w0) as (c & [-> | ->] & Hc)
  end.



Lemma get_profile_details_waits T e did w :
  T ≤ clock w →
  ∃ x w',
    get_profile_details e did w = (Ret x, w') ∧
    waits_until T (requests w) (requests w') ∧ T ≤ clock w' ∧
    store_log w' = store_log w ∧ draws w' = draws w ∧
    total_processed w' = total_processed w.
Proof.
  intros Hclk. unfold get_profile_details.
  destruct did as [d|]; [|unfold ret; eauto 10 using waits_until_refl].
  destruct (truthy (Some d)); [|unfold ret; eauto 10 using waits_until_refl].
  destruct (check_rate_limit_spec e w)
    as (w2 & Hchk & Hreq2 & Hclk2 & _ & _ & _ & Hlog2 & Hdr2 & Htot2).
  unfold bind at 1. rewrite Hchk. unfold try_except, bind, http.
  assert (waits_until T (requests w)
            (requests w2 ++ [(clock w2, GetProfile d)])) as Hwait'.
  { apply (waits_until_trans _ _ (requests w2)).
    - rewrite Hreq2. apply waits_until_maybe_session.
    - apply waits_until_late. lia. }
  assert (T ≤ clock w2) by lia.
  destruct (server e _ _) as [headers result|]; cbv beta iota;
    [answered|]; unfold ret; simpl; eauto 10.
Qed.

Lemma get_profile_waits T e handle w :
  held_back T w →
  ∃ x w',
    get_profile e handle w = (Ret x, w') ∧
    waits_until T (requests w) (requests w') ∧ T ≤ clock w' ∧
    store_log w' = store_log w ∧ draws w' = draws w ∧
    total_processed w' = total_processed w.
Proof.
  intros Hheld.
  destruct (guard_spec T e w Hheld)
    as (w1 & w2 & Hinit & Hchk & Hwait & Hclk & Hlog & Hdr & Htot).
  unfold get_profile, bind at 1 2. rewrite Hinit, Hchk.
  unfold try_except, bind at 1, http.
  assert (waits_until T (requests w)
            (requests w2 ++ [(clock w2, DescribeRepo handle)])) as Hwait'.
  { eapply waits_until_trans; [exact Hwait|by apply waits_until_late]. }
  destruct (server e _ _) as [headers result|]; cbv beta iota;
    [|unfold ret; eauto 10].
  unfold bind at 1.
  set (w3 := mkWorld _ _ _ _ _ _).
  destruct (get_profile_details_waits T e (get_str "did" result) w3)
    as (x & w4 & -> & Hwait4 & Hclk4 & Hlog4 & Hdr4 & Htot4); [done|].
  assert (waits_until T (requests w) (requests w4)) as Hwait''
    by (eapply waits_until_trans; [exact Hwait'|exact Hwait4]).
  unfold bind. answered; unfold ret; simpl;
    (eexists _, _; split; [done|]; simpl;
     split; [done|]; split; [done|]; by rewrite Hlog4, Hdr4, Htot4).
Qed.

End ClientFacts.

(** ** Token lifetime and rate-limit budget *)

Module RateLimit.
Import Api Worker Scenarios ClientFacts.

Lemma is_token_expired_with_token c t0 now :
  truthy (auth_token c) = true → token_created_at c = Some t0 → t0 ≠ 0 →
  is_token_expired c now = (t0 + token_expires_in c - 300 <=? now).
Proof.
  intros Htok Hcreated Ht0. unfold is_token_expired. rewrite Hcreated, Htok.
  simpl. by rewrite (proj2 (Z.eqb_neq t0 0) Ht0).
Qed.

Lemma get_follows_requests e did cursor w :
  truthy (auth_token (api_client w)) = true →
  ∃ t,
    requests (snd (get_follows e did cursor w))
    = requests w ++
      (if refresh_due (api_client w) (clock w)
       then [(clock w, CreateSession (username (api_client w))
                                     (password (api_client w)))]
       else []) ++
      [(t, GetFollows did (if truthy cursor then cursor else None))].
Proof.
  intros Htok.
  destruct (initialize_spec e w) as (w1 & Hinit & Hsame & _).
  rewrite (Hsame Htok) in Hinit.
  destruct (check_rate_limit_spec e w) as (w2 & Hchk & Hreq & _).
  unfold get_follows, bind at 1 2. rewrite Hinit, Hchk.
  unfold try_except, bind, http. exists (clock w2).
  destruct (server e _ _) as [headers result|]; cbv beta iota;
    [answered|]; unfold ret; simpl; by rewrite Hreq, <- app_assoc.
Qed.

(** The client [_check_rate_limit] leaves behind: the one it found, or,
    when the refresh was due and the session request was answered, that
    one with the token of the answer, created now. *)
Lemma check_rate_limit_client e w :
  api_client (snd (check_rate_limit e w))
  = if refresh_due (api_client w) (clock w) then
      match server e (length (requests w))
                   (CreateSession (username (api_client w))
                                  (password (api_client w))) with
      | Ok200 _ result =>
          mkClient (get_str "accessJwt" result) (username (api_client w))
                   (password (api_client w))
                   (rate_limit_remaining (api_client w))
                   (rate_limit_reset (api_client w)) (Some (clock w)) 3600
      | Failed => api_client w
      end
    else api_client w.
Proof.
  unfold check_rate_limit, refresh_due.
  unfold bind at 1. unfold get_client at 1. unfold bind at 1. unfold time at 1.
  unfold bind at 1.
  destruct (truthy (username (api_client w)) && truthy (password (api_client w))
            && is_token_expired (api_client w) (clock w)).
  - unfold authenticate, bind, get_client, http, time, set_client, sleep, ret.
    simpl. destruct (server e _ _) as [headers result|]; simpl;
      repeat case_match; done.
  - unfold bind, get_client, time, sleep, ret. simpl. repeat case_match; done.
Qed.

(** A follows call leaves the token as [_check_rate_limit] left it. *)
Lemma get_follows_token e did cursor w :
  truthy (auth_token (api_client w)) = true →
  token (api_client (snd (get_follows e did cursor w)))
  = token (api_client (snd (check_rate_limit e w))).
Proof.
  intros Htok.
  destruct (initialize_spec e w) as (w1 & Hinit & Hsame & _).
  rewrite (Hsame Htok) in Hinit.
  destruct (check_rate_limit_spec e w) as (w2 & Hchk & _).
  unfold get_follows, bind at 1 2. rewrite Hinit, Hchk.
  unfold try_except, bind, http.
  destruct (server e _ _) as [headers result|]; cbv beta iota;
    [answered|]; unfold ret; simpl; [| |done];
    destruct Hc as (H1 & H2 & H3); unfold token; simpl in *; congruence.
Qed.

(** C5.  With credentials configured and a token created at [t0] (a clock
    reading, so not zero) with [expires_in = 3600]: a request attempted at
    [t0 + 3300] or later, so anywhere in the last 300 seconds before expiry
    such as [t0 + 3600 - 250], makes [_check_rate_limit] send the session
    request first, and the data request follows it in the log; when the
    session request is answered, the client holds the token of the answer,
    created at the time of the attempt, from before the data request is
    sent until after the call (when it is refused, the old token stays).
    A request attempted before [t0 + 3300], such as at [t0 + 1000], sends
    no session request and leaves the client and its token as they
    were. *)
Theorem token_refresh_within_buffer e w t0 did cursor :
  truthy (username (api_client w)) = true →
  truthy (password (api_client w)) = true →
  truthy (auth_token (api_client w)) = true →
  token_created_at (api_client w) = Some t0 → t0 ≠ 0 →
  token_expires_in (api_client w) = 3600 →
  let session :=
    (clock w, CreateSession (username (api_client w))
                            (password (api_client w))) in
  let data t := (t, GetFollows did (if truthy cursor then cursor else None)) in
  let answer := server e (length (requests w)) (snd session) in
  let at_request := api_client (snd (check_rate_limit e w)) in
  let afterwards := api_client (snd (get_follows e did cursor w)) in
  (t0 + 3600 - 300 ≤ clock w →
   is_token_expired (api_client w) (clock w) = true ∧
   requests (snd (check_rate_limit e w)) = requests w ++ [session] ∧
   (∃ t, requests (snd (get_follows e did cursor w))
         = requests w ++ [session; data t]) ∧
   token afterwards = token at_request ∧
   (∀ headers result,
      answer = Ok200 headers result →
      token at_request = (get_str "accessJwt" result, Some (clock w), 3600)) ∧
   (answer = Failed → token at_request = token (api_client w))) ∧
  (clock w < t0 + 3600 - 300 →
   is_token_expired (api_client w) (clock w) = false ∧
   requests (snd (check_rate_limit e w)) = requests w ∧
   (∃ t, requests (snd (get_follows e did cursor w)) = requests w ++ [data t]) ∧
   at_request = api_client w ∧
   token afterwards = token (api_client w)).
Proof.
  intros Hu Hp Htok Hcreated Ht0 Hexp session data answer at_request afterwards.
  pose proof (is_token_expired_with_token _ _ (clock w) Htok Hcreated Ht0) as Hx.
  rewrite Hexp in Hx.
  pose proof (check_rate_limit_client e w) as Hclient.
  pose proof (get_follows_token e did cursor w Htok) as Hafter.
  fold at_request in Hclient, Hafter. fold afterwards in Hafter.
  destruct (check_rate_limit_spec e w) as (w2 & Hchk & Hreq & _).
  destruct (get_follows_requests e did cursor w Htok) as (t & Hget).
  unfold refresh_due in Hreq, Hget, Hclient. rewrite Hu, Hp in Hreq, Hget, Hclient.
  simpl in Hreq, Hget, Hclient. rewrite Hchk. simpl. split; intros Hnow.
  - assert (is_token_expired (api_client w) (clock w) = true) as Hexpd.
    { rewrite Hx. apply Z.leb_le. lia. }
    rewrite Hexpd in Hreq, Hget, Hclient.
    split; [done|]. split; [done|]. split; [by exists t|].
    split; [done|]. split.
    + intros headers result Hans. unfold answer, session in Hans.
      simpl in Hans. rewrite Hans in Hclient. by rewrite Hclient.
    + intros Hans. unfold answer, session in Hans.
      simpl in Hans. rewrite Hans in Hclient. by rewrite Hclient.
  - assert (is_token_expired (api_client w) (clock w) = false) as Hexpd.
    { rewrite Hx. apply Z.leb_gt. lia. }
    rewrite Hexpd in Hreq, Hget, Hclient. split; [done|].
    rewrite app_nil_r in Hreq. split; [done|]. split; [by exists t|].
    split; [done|]. by rewrite Hafter, Hclient.
Qed.

Lemma token_refresh_within_buffer_witness :
  ((∃ t, requests (snd (get_follows renewing "did:x" None
                                    (world_at (1000 + 3600 - 250) signed_in)))
         = [(1000 + 3600 - 250,
             CreateSession (Some "me.test") (Some "secret"));
            (t, GetFollows "did:x" None)]) ∧
   token (api_client (snd (get_follows renewing "did:x" None
                             (world_at (1000 + 3600 - 250) signed_in))))
   = (Some "jwt2", Some (1000 + 3600 - 250), 3600)) ∧
  ((∃ t, requests (snd (get_follows renewing "did:x" None
                                    (world_at (1000 + 1000) signed_in)))
         = [(t, GetFollows "did:x" None)]) ∧
   token (api_client (snd (get_follows renewing "did:x" None
                             (world_at (1000 + 1000) signed_in))))
   = (Some "jwt", Some 1000, 3600)).
Proof.
  split.
  - destruct (token_refresh_within_buffer renewing
                (world_at (1000 + 3600 - 250) signed_in) 1000 "did:x" None)
      as [Hlate _]; try reflexivity; [discriminate|].
    destruct Hlate as (_ & _ & Hreq & Hafter & Hnew & _); [simpl; lia|].
    split; [exact Hreq|]. rewrite Hafter.
    exact (Hnew ∅ {[ "accessJwt" := VStr "jwt2" ]} eq_refl).
  - destruct (token_refresh_within_buffer renewing
                (world_at (1000 + 1000) signed_in) 1000 "did:x" None)
      as [_ Hearly]; try reflexivity; [discriminate|].
    destruct Hearly as (_ & _ & Hreq & _ & Hafter); [simpl; lia|].
    split; [exact Hreq|]. exact Hafter.
Defined.




(** C7 fails on the code, against the comment in [_update_rate_limit]
    itself.  A 200 response whose [ratelimit-remaining] is not a number sets
    the budget to 10 and the reset 60 seconds on, but [_check_rate_limit]
    sleeps only under 10, so the next request goes out at once; and a
    response without rate-limit headers leaves the budget as it was. *)
Theorem malformed_headers_get_no_cool_down :
  let e := answering malformed_headers in
  let w0 := world_at 1000 (new_client None None) in
  let w1 := snd (get_follows e "did:x" None w0) in
  let w2 := snd (get_follows e "did:x" None w1) in
  rate_limit_remaining (api_client w1) = 10 ∧
  rate_limit_reset (api_client w1) = 1060 ∧
  requests w2 = [(1000, GetFollows "did:x" None);
                 (1000, GetFollows "did:x" None)] ∧
  api_client (snd (get_follows (answering ∅) "did:x" None w0))
  = new_client None None.
Proof. by vm_compute. Qed.

End RateLimit.

(** ** The traversal *)

Module TraversalFacts.
Import Api Worker ClientFacts.

Create HintDb keeps.

Lemma keeps_total_ret {A} (a : A) : keeps_total (ret a).
Proof. by intros w. Qed.

Lemma keeps_total_diverge {A} : keeps_total (@diverge A).
Proof. by intros w. Qed.

Lemma keeps_total_bind {A B} (m : M A) (f : A → M B) :
  keeps_total m → (∀ a, keeps_total (f a)) → keeps_total (bind m f).
Proof.
  intros Hm Hf w. unfold bind. specialize (Hm w).
  destruct (m w) as [[a| |] w']; simpl in *; [|done..].
  by rewrite Hf.
Qed.

Lemma keeps_total_try {A} (body handler : M A) :
  keeps_total body → keeps_total handler → keeps_total (try_except body handler).
Proof.
  intros Hb Hh w. unfold try_except. specialize (Hb w).
  destruct (body w) as [[a| |] w']; simpl in *; [done| |done].
  by rewrite Hh.
Qed.

Lemma keeps_total_for_each {A} (xs : list A) (body : A → M unit) :
  (∀ x, keeps_total (body x)) → keeps_total (for_each xs body).
Proof.
  intros Hb. induction xs as [|x xs IH]; simpl.
  - apply keeps_total_ret.
  - apply keeps_total_bind; [apply Hb|done].
Qed.

Lemma keeps_total_time : keeps_total time.
Proof. by intros w. Qed.

Lemma keeps_total_sleep d : keeps_total (sleep d).
Proof. by intros w. Qed.

Lemma keeps_total_get_client : keeps_total get_client.
Proof. by intros w. Qed.

Lemma keeps_total_set_client c : keeps_total (set_client c).
Proof. by intros w. Qed.

Lemma keeps_total_http e r : keeps_total (http e r).
Proof. by intros w. Qed.

Lemma keeps_total_store e c : keeps_total (store e c).
Proof. by intros w. Qed.

Lemma keeps_total_flip e : keeps_total (flip e).
Proof. by intros w. Qed.

Lemma keeps_total_jitter e : keeps_total (jitter e).
Proof. by intros w. Qed.

Lemma keeps_total_get_total : keeps_total get_total.
Proof. by intros w. Qed.

#[local] Hint Resolve keeps_total_ret keeps_total_diverge keeps_total_time
  keeps_total_sleep keeps_total_get_client keeps_total_set_client
  keeps_total_http keeps_total_store keeps_total_flip keeps_total_jitter
  keeps_total_get_total : keeps.

(** Walks down a computation built from [bind], [try_except], [for_each]
    and case distinctions, closing the leaves from the hint base. *)
Ltac keeps :=
  repeat first
    [ solve [auto with keeps]
    | apply keeps_total_bind; [|intros ?]
    | apply keeps_total_try
    | apply keeps_total_for_each; intros ?
    | match goal with
      | |- keeps_total (match ?x with _ => _ end) => destruct x
      | |- keeps_total (if ?x then _ else _) => destruct x
      end ].

Lemma keeps_total_authenticate e : keeps_total (authenticate e).
Proof. unfold authenticate. keeps. Qed.
#[local] Hint Resolve keeps_total_authenticate : keeps.

Lemma keeps_total_initialize e : keeps_total (initialize e).
Proof. unfold initialize. keeps. Qed.

Lemma keeps_total_check_rate_limit e : keeps_total (check_rate_limit e).
Proof. unfold check_rate_limit. keeps. Qed.

Lemma keeps_total_update_rate_limit h : keeps_total (update_rate_limit h).
Proof. unfold update_rate_limit. keeps. Qed.
#[local] Hint Resolve keeps_total_initialize keeps_total_check_rate_limit
  keeps_total_update_rate_limit : keeps.

Lemma keeps_total_get_profile_details e did :
  keeps_total (get_profile_details e did).
Proof. unfold get_profile_details. keeps. Qed.
#[local] Hint Resolve keeps_total_get_profile_details : keeps.

Lemma keeps_total_get_profile e handle : keeps_total (get_profile e handle).
Proof. unfold get_profile. keeps. Qed.

Lemma keeps_total_get_follows e did cursor :
  keeps_total (get_follows e did cursor).
Proof. unfold get_follows. keeps. Qed.

Lemma keeps_total_get_followers e did cursor :
  keeps_total (get_followers e did cursor).
Proof. unfold get_followers. keeps. Qed.

Lemma keeps_total_store_user e did handle :
  keeps_total (store_user e did handle).
Proof. unfold store_user. keeps. Qed.
#[local] Hint Resolve keeps_total_get_profile keeps_total_get_follows
  keeps_total_get_followers keeps_total_store_user : keeps.

Lemma keeps_total_collect_page e follows acc :
  keeps_total (collect_page e follows acc).
Proof.
  revert acc. induction follows as [|f follows IH]; intros acc; simpl; keeps.
Qed.
#[local] Hint Resolve keeps_total_collect_page : keeps.

Lemma keeps_total_collect_all_follows_loop e fuel did cursor acc :
  keeps_total (collect_all_follows_loop e fuel did cursor acc).
Proof.
  revert cursor acc. induction fuel as [|fuel IH]; intros cursor acc; simpl;
    keeps.
Qed.

Lemma keeps_total_sample_follower e follower :
  keeps_total (sample_follower e follower).
Proof. unfold sample_follower. keeps. Qed.
#[local] Hint Resolve keeps_total_collect_all_follows_loop
  keeps_total_sample_follower : keeps.

Lemma keeps_total_collect_some_followers_loop e pages did cursor :
  keeps_total (collect_some_followers_loop e pages did cursor).
Proof.
  revert cursor. induction pages as [|pages IH]; intros cursor; simpl; keeps.
Qed.
#[local] Hint Resolve keeps_total_collect_some_followers_loop : keeps.

Lemma keeps_total_process_account e fuel did handle :
  keeps_total (process_account e fuel did handle).
Proof.
  unfold process_account, collect_all_follows, collect_some_followers. keeps.
Qed.

Lemma keeps_total_get_next_accounts e limit days :
  keeps_total (get_next_accounts e limit days).
Proof. unfold get_next_accounts. keeps. Qed.

Lemma keeps_total_add_recommended_accounts e :
  keeps_total (add_recommended_accounts e).
Proof. unfold add_recommended_accounts. keeps. Qed.

Lemma keeps_total_update_account_priorities e :
  keeps_total (update_account_priorities e).
Proof. unfold update_account_priorities. keeps. Qed.

Lemma keeps_total_add_seed_accounts e handles :
  keeps_total (add_seed_accounts e handles).
Proof. unfold add_seed_accounts. keeps. Qed.
#[local] Hint Resolve keeps_total_process_account keeps_total_get_next_accounts
  keeps_total_add_recommended_accounts keeps_total_update_account_priorities
  keeps_total_add_seed_accounts : keeps.

(** *** The count of [start] *)

Lemma visit_total e page_fuel account w :
  total_processed w ≤ total_processed (snd (visit e page_fuel account w))
  ≤ total_processed w + 1.
Proof.
  unfold visit, bind.
  pose proof (keeps_total_process_account e page_fuel (fst account)
                (snd account) w) as Hkeep.
  destruct (process_account e page_fuel (fst account) (snd account) w)
    as [[[]| |] w1]; simpl in *; lia.
Qed.

Lemma for_each_visit_total e page_fuel accounts w :
  total_processed w
  ≤ total_processed (snd (for_each accounts (visit e page_fuel) w))
  ≤ total_processed w + Z.of_nat (length accounts).
Proof.
  revert w. induction accounts as [|a accounts IH]; intros w; simpl; [lia|].
  unfold bind. pose proof (visit_total e page_fuel a w) as Hv.
  destruct (visit e page_fuel a w) as [[[]| |] w1]; simpl in *; [|lia..].
  specialize (IH w1). lia.
Qed.

Lemma get_next_accounts_spec e limit days w :
  ∃ accounts w1,
    get_next_accounts e limit days w = (Ret accounts, w1) ∧
    total_processed w1 = total_processed w ∧
    (accounts = [] ∨ ∃ k, accounts = due_accounts e k).
Proof.
  unfold get_next_accounts, try_except, bind, store, ret.
  destruct (store_raises e (length (store_log w))); simpl; eauto 10.
Qed.

(** The loop never takes the count past [max_accounts + batch_size - 1],
    whether it ends or is still running when the fuel is spent. *)
Lemma main_loop_total e fuel page_fuel batch_size max_accounts days w :
  (∀ k, Z.of_nat (length (due_accounts e k)) ≤ batch_size) →
  total_processed w ≤ max_accounts + batch_size - 1 →
  total_processed
    (snd (main_loop e fuel page_fuel batch_size max_accounts days w))
  ≤ max_accounts + batch_size - 1.
Proof.
  intros Hbatch. revert w. induction fuel as [|fuel IH]; intros w Hw; [done|].
  cbn [main_loop]. unfold bind at 1. unfold get_total at 1.
  destruct (total_processed w <? max_accounts) eqn:Hlt; [|done].
  apply Z.ltb_lt in Hlt. unfold bind at 1.
  destruct (get_next_accounts_spec e batch_size days w)
    as (accounts & w1 & -> & Htot1 & Hacc).
  destruct accounts as [|a accounts].
  - unfold bind.
    pose proof (keeps_total_add_recommended_accounts e w1) as Hkeep.
    destruct (add_recommended_accounts e w1) as [[[]| |] w2]; simpl in *;
      try lia.
    apply IH. lia.
  - destruct Hacc as [Hacc|[k Hacc]]; [done|].
    unfold bind at 1.
    pose proof (for_each_visit_total e page_fuel (a :: accounts) w1) as Hv.
    specialize (Hbatch k). rewrite <- Hacc in Hbatch.
    destruct (for_each (a :: accounts) (visit e page_fuel) w1)
      as [[[]| |] w2]; simpl snd in *; [|lia..].
    unfold bind at 1. unfold get_total at 1. unfold bind at 1.
    pose proof (keeps_total_update_account_priorities e w2) as Hkeep.
    destruct (total_processed w2 `mod` 50 =? 0).
    + destruct (update_account_priorities e w2) as [[[]| |] w3];
        simpl in *; try lia.
      apply IH. lia.
    + simpl. apply IH. lia.
Qed.

Lemma settles_ret {A} (a : A) : settles (ret a).
Proof. by intros w. Qed.

Lemma settles_bind {A B} (m : M A) (f : A → M B) :
  settles m → (∀ a, settles (f a)) → settles (bind m f).
Proof.
  intros Hm Hf w. unfold bind. specialize (Hm w).
  destruct (m w) as [[a| |] w']; simpl in *; [apply Hf|done..].
Qed.

Lemma settles_try {A} (body handler : M A) :
  settles body → settles handler → settles (try_except body handler).
Proof.
  intros Hb Hh w. unfold try_except. specialize (Hb w).
  destruct (body w) as [[a| |] w']; simpl in *; [done|apply Hh|done].
Qed.

Lemma settles_store e c : settles (store e c).
Proof. intros w. unfold store. simpl. by destruct (store_raises e _). Qed.

Lemma settles_get_profile e handle : settles (get_profile e handle).
Proof.
  intros w. destruct (get_profile_waits (clock w) e handle w)
    as (x & w' & -> & _); [right; lia|done].
Qed.

Lemma settles_store_user e did handle : settles (store_user e did handle).
Proof.
  unfold store_user. apply settles_try; [|apply settles_ret].
  apply settles_bind; [apply settles_store|intros; apply settles_ret].
Qed.

Lemma try_pass_returns (body : M unit) w :
  settles body → ∃ w', try_except body (ret tt) w = (Ret tt, w').
Proof.
  intros Hb. unfold try_except. specialize (Hb w).
  destruct (body w) as [[[]| |] w']; simpl in *; [eauto..|done].
Qed.

Lemma for_each_returns {A} (xs : list A) (body : A → M unit) w :
  (∀ x w, ∃ w', body x w = (Ret tt, w')) →
  ∃ w', for_each xs body w = (Ret tt, w').
Proof.
  intros Hb. revert w. induction xs as [|x xs IH]; intros w; simpl.
  - by exists w.
  - unfold bind. destruct (Hb x w) as [w1 ->]. apply IH.
Qed.

Lemma add_seed_accounts_returns e handles w :
  ∃ w', add_seed_accounts e handles w = (Ret tt, w').
Proof.
  unfold add_seed_accounts. apply for_each_returns. intros handle w0.
  apply try_pass_returns.
  destruct (negb (has_dot handle)); [apply settles_ret|].
  apply settles_bind; [apply settles_get_profile|]. intros [p|];
    [|apply settles_ret].
  destruct (no_profile (Some p)); [apply settles_ret|].
  destruct (get_str "did" p) as [did|]; [|apply settles_ret].
  destruct (truthy (Some did)); [|apply settles_ret].
  apply settles_bind; [apply settles_store_user|]. intros _.
  apply settles_bind; [apply settles_store|]. intros _. apply settles_ret.
Qed.

Lemma start_total e fuel page_fuel seeds max_accounts days w :
  (∀ k, Z.of_nat (length (due_accounts e k)) ≤ Z.min 10 max_accounts) →
  1 ≤ max_accounts →
  total_processed (snd (start e fuel page_fuel seeds max_accounts days w))
  ≤ max_accounts + Z.min 10 max_accounts - 1.
Proof.
  intros Hbatch Hmax. unfold start. unfold bind at 1.
  assert (∃ w1, (match seeds with
                 | [] => ret tt
                 | _ :: _ => add_seed_accounts e seeds
                 end) w = (Ret tt, w1)) as [w1 ->].
  { destruct seeds; [by exists w|apply add_seed_accounts_returns]. }
  unfold bind at 1. unfold set_total at 1. unfold bind.
  set (w2 := mkWorld _ _ _ _ _ 0).
  pose proof (main_loop_total e fuel page_fuel (Z.min 10 max_accounts)
                max_accounts days w2 Hbatch) as Hloop.
  destruct (main_loop e fuel page_fuel _ max_accounts days w2)
    as [[[]| |] w3]; simpl in *; lia.
Qed.

End TraversalFacts.

(** ** Per-account processing and the batch loop *)

Module Traversal.
Import Api Worker Scenarios ClientFacts TraversalFacts.

(** C2 fails on the code.  [get_follows] answers a failed fetch with an
    empty page, which [_collect_all_follows] takes for the end of the list:
    when the second page of an account that follows [did:a] and [did:b]
    cannot be fetched, [process_account_follows] is called with [did:a]
    alone and the account is marked [completed]; when it can, the call gets
    both. *)
Theorem partial_follow_list_is_reconciled :
  let w0 := world_at 1000 (new_client None None) in
  store_log (snd (process_account (two_pages second_page) 5 "did:x" "x.test" w0))
  = [(StoreUser "did:x" "x.test", true);
     (StoreUser "did:a" "a.test", true);
     (StoreUser "did:b" "b.test", true);
     (RpcProcessAccountFollows "did:x" ["did:a"; "did:b"], true);
     (RpcMarkAccountCrawled "did:x" completed, true)] ∧
  process_account (two_pages Failed) 5 "did:x" "x.test" w0
  = (Ret tt,
     mkWorld 1002 (new_client None None)
       [(1000, DescribeRepo "x.test"); (1000, GetProfile "did:x");
        (1000, GetFollows "did:x" None);
        (1002, GetFollows "did:x" (Some "c1"))]
       [(StoreUser "did:x" "x.test", true);
        (StoreUser "did:a" "a.test", true);
        (RpcProcessAccountFollows "did:x" ["did:a"], true);
        (RpcMarkAccountCrawled "did:x" completed, true)]
       1 0).
Proof. by vm_compute. Qed.

(** C8.  When the profile fetch of an account comes back with no profile,
    [_process_account] returns without raising, sends no request after the
    profile fetch, and its only store calls are the marking: [failed], and
    it is that alone when the store accepts it; should the store refuse it,
    the handler tries [error] once. *)
Theorem missing_profile_is_marked_failed e fuel did handle w profile w1 :
  get_profile e handle w = (Ret profile, w1) →
  no_profile profile = true →
  ∃ w',
    process_account e fuel did handle w = (Ret tt, w') ∧
    requests w' = requests w1 ∧
    store_log w'
    = store_log w ++
      (if store_raises e (length (store_log w))
       then [(RpcMarkAccountCrawled did failed, false);
             (RpcMarkAccountCrawled did error,
              negb (store_raises e (S (length (store_log w)))))]
       else [(RpcMarkAccountCrawled did failed, true)]).
Proof.
  intros Hget Hnone.
  destruct (get_profile_waits (clock w) e handle w)
    as (x & w1' & Hget' & _ & _ & Hlog & _); [right; lia|].
  rewrite Hget in Hget'. inversion Hget'; subst x w1'. clear Hget'.
  unfold process_account, try_except at 1, bind at 1. rewrite Hget, Hnone.
  destruct w1 as [clk1 c1 reqs1 log1 dr1 tot1]. simpl in Hlog. subst log1.
  unfold bind, store, ret, try_except. cbn.
  destruct (store_raises e (length (store_log w))) eqn:Hfirst; cbn.
  - rewrite length_app, Nat.add_1_r. cbn.
    destruct (store_raises e (S (length (store_log w)))); cbn;
      eexists; (split; [done|]); cbn; by rewrite <- app_assoc.
  - eexists. split; [done|]. done.
Qed.

Lemma missing_profile_is_marked_failed_witness :
  ∃ w',
    process_account busy_queue 5 "did:m" "missing.example"
                    (world_at 1000 (new_client None None)) = (Ret tt, w') ∧
    requests w' = [(1000, DescribeRepo "missing.example")] ∧
    store_log w' = [(RpcMarkAccountCrawled "did:m" failed, true)].
Proof.
  apply (missing_profile_is_marked_failed busy_queue 5 "did:m"
           "missing.example" (world_at 1000 (new_client None None)) None
           (mkWorld 1000 (new_client None None)
                    [(1000, DescribeRepo "missing.example")] [] 0 0)).
  - reflexivity.
  - reflexivity.
Defined.

(** C10, as the claim states it, fails for [max_accounts = 0]: the loop
    is not entered, nothing is processed, and
    [max_accounts + batchSize - 1] is [-1]. *)
Lemma bound_is_negative_at_zero :
  let r := start (answering ∅) 3 1 [] 0 7 (world_at 0 (new_client None None)) in
  (∀ k, Z.of_nat (length (due_accounts (answering ∅) k)) ≤ Z.min 10 0) ∧
  fst r = Ret 0 ∧ total_processed (snd r) = 0 ∧
  ¬ (total_processed (snd r) ≤ 0 + Z.min 10 0 - 1).
Proof.
  split; [intros k; simpl; lia|]. split; [reflexivity|].
  split; [reflexivity|]. simpl. lia.
Qed.

Lemma start_result e fuel page_fuel seeds max_accounts days w n w' :
  start e fuel page_fuel seeds max_accounts days w = (Ret n, w') →
  n = total_processed w'.
Proof.
  unfold start. unfold bind at 1.
  destruct (match seeds with [] => ret tt | _ :: _ => _ end w)
    as [[[]| |] w1]; [|done..].
  unfold bind at 1. unfold set_total at 1. unfold bind.
  destruct (main_loop e fuel page_fuel _ max_accounts days _)
    as [[[]| |] w3]; [|done..].
  unfold get_total. by inversion 1.
Qed.

(** C10, as amended.  For every run with [max_accounts] at least 1 whose
    queue hands out at most [batchSize = min(10, max_accounts)] accounts per
    batch, the number of accounts processed never exceeds
    [max_accounts + batchSize - 1], whether the run has ended or not, and
    so neither does the total a finished run reports; the bound is reached
    with [max_accounts = 11] and two batches of ten, where 20 accounts are
    processed. *)
Theorem processed_at_most_one_batch_over :
  (∀ e fuel page_fuel seeds max_accounts days w,
     1 ≤ max_accounts →
     (∀ k, Z.of_nat (length (due_accounts e k)) ≤ Z.min 10 max_accounts) →
     let r := start e fuel page_fuel seeds max_accounts days w in
     total_processed (snd r) ≤ max_accounts + Z.min 10 max_accounts - 1 ∧
     ∀ n, fst r = Ret n → n ≤ max_accounts + Z.min 10 max_accounts - 1) ∧
  fst (start busy_queue 3 1 [] 11 7 (world_at 0 (new_client None None)))
  = Ret (11 + Z.min 10 11 - 1).
Proof.
  split; [|by vm_compute].
  intros e fuel page_fuel seeds max_accounts days w Hmax Hbatch r.
  pose proof (start_total e fuel page_fuel seeds max_accounts days w
                Hbatch Hmax) as Htotal.
  split; [exact Htotal|]. intros n Hn.
  rewrite (start_result e fuel page_fuel seeds max_accounts days w n (snd r));
    [exact Htotal|].
  subst r. destruct (start _ _ _ _ _ _ _) as [o w']. simpl in *. by subst o.
Qed.

Lemma processed_at_most_one_batch_over_witness :
  total_processed
    (snd (start busy_queue 3 1 [] 11 7 (world_at 0 (new_client None None))))
  ≤ 11 + Z.min 10 11 - 1.
Proof.
  destruct processed_at_most_one_batch_over as [Hbound _].
  destruct (Hbound busy_queue 3%nat 1%nat [] 11 7
              (world_at 0 (new_client None None))) as [Htotal _].
  - lia.
  - intros k. simpl. lia.
  - exact Htotal.
Defined.

End Traversal.

(** ** Further properties of the edge writers *)

Module Edges.
Import Api Store Detector Core Pages Scenarios StoreFacts.

(** X1.  Adding a follow relationship a second time, at whatever later
    time, returns the row the first call returned and leaves the table as
    the first call left it. *)
Theorem add_follow_relationship_twice now1 now2 a b tbl :
  add_follow_relationship now2 a b
    (snd (add_follow_relationship now1 a b tbl))
  = add_follow_relationship now1 a b tbl.
Proof.
  unfold add_follow_relationship at 2 3.
  destruct (select (is_pair a b) tbl) as [|r rest] eqn:Hsel; simpl.
  - unfold add_follow_relationship, select, insert. unfold select in Hsel.
    rewrite filter_app, Hsel, filter_cons_True by done. done.
  - unfold add_follow_relationship. by rewrite Hsel.
Qed.

(** X2.  Adding a follow relationship only ever appends: the table before
    is a prefix of the table after, at most one row is appended, and the
    rows selected for any other ordered pair are the same before and
    after. *)
Theorem add_follow_relationship_appends now a b tbl :
  ∃ added,
    snd (add_follow_relationship now a b tbl) = tbl ++ added ∧
    (length added ≤ 1)%nat ∧
    ∀ a' b', (a', b') ≠ (a, b) →
      select (is_pair a' b') (snd (add_follow_relationship now a b tbl))
      = select (is_pair a' b') tbl.
Proof.
  unfold add_follow_relationship.
  destruct (select (is_pair a b) tbl) as [|r rest]; simpl.
  - exists [new_row tbl a b now]. split; [done|]. split; [simpl; lia|].
    intros a' b' Hne. unfold select, insert.
    rewrite filter_app, filter_cons_False, filter_nil, app_nil_r; [done|].
    intros [Ha Hb]. simpl in Ha, Hb. congruence.
  - exists []. rewrite app_nil_r. split; [done|]. split; [simpl; lia|done].
Qed.

Lemma select_pair_fmap (g : FollowRow → FollowRow) a b tbl :
  (∀ r, is_pair a b (g r) ↔ is_pair a b r) →
  select (is_pair a b) (g <$> tbl) = g <$> select (is_pair a b) tbl.
Proof.
  intros Hg. unfold select. induction tbl as [|r tbl IH]; [done|].
  rewrite fmap_cons, !filter_cons.
  destruct (decide (is_pair a b r)) as [Hr|Hr];
    destruct (decide (is_pair a b (g r))) as [Hr'|Hr'].
  - by rewrite fmap_cons, IH.
  - destruct Hr'. by apply Hg.
  - destruct Hr. by apply Hg.
  - done.
Qed.

(** X3.  On a table with at most one row per pair, [_store_follow] leaves
    exactly one row for the pair, verified at the time of the call; when
    the pair had a row already, that row keeps its key, status,
    [created_at] and [unfollowed_at], so a retired edge that is observed
    again is refreshed and stays retired. *)
Theorem store_follow_refreshes now a b tbl :
  unique_edges tbl →
  ∃ r,
    select (is_pair a b) (store_follow now a b tbl) = [r] ∧
    last_verified_at r = now ∧
    ∀ r0, r0 ∈ tbl → is_pair a b r0 →
      id r = id r0 ∧ follow_status r = follow_status r0 ∧
      created_at r = created_at r0 ∧ unfollowed_at r = unfollowed_at r0.
Proof.
  intros Hu. unfold store_follow.
  destruct (select (is_pair a b) tbl) as [|r0 rest] eqn:Hsel.
  - exists (new_row tbl a b now). split; [|split; [done|]].
    + unfold select, insert. unfold select in Hsel.
      by rewrite filter_app, Hsel, filter_cons_True.
    + intros r1 Hin Hp. exfalso.
      eapply filter_nil_not_elem_of; [exact Hsel|exact Hp|exact Hin].
  - assert (rest = []) as ->.
    { specialize (Hu a b). rewrite Hsel in Hu. destruct rest; [done|].
      simpl in Hu. lia. }
    exists (set_verified now r0). split; [|split; [done|]].
    + unfold update_id. rewrite select_pair_fmap.
      * rewrite Hsel. simpl. by rewrite decide_True.
      * intros r. by destruct (decide (id r = id r0)).
    + intros r1 Hin Hp.
      assert (r1 ∈ select (is_pair a b) tbl) as Hr1
        by (unfold select; by apply list_elem_of_filter).
      rewrite Hsel in Hr1. apply list_elem_of_singleton in Hr1. by subst r1.
Qed.

Lemma store_follow_refreshes_witness :
  ∃ r,
    select (is_pair "did:x" "did:a") (store_follow 50 "did:x" "did:a" one_edge)
    = [r] ∧
    last_verified_at r = 50 ∧
    ∀ r0, r0 ∈ one_edge → is_pair "did:x" "did:a" r0 →
      id r = id r0 ∧ follow_status r = follow_status r0 ∧
      created_at r = created_at r0 ∧ unfollowed_at r = unfollowed_at r0.
Proof.
  apply (store_follow_refreshes 50 "did:x" "did:a" one_edge).
  apply unique_edges_run, unique_edges_nil.
Defined.

Lemma same_edge_refl r : same_edge r r.
Proof. by repeat split. Qed.

Lemma mark_all_same_edge now db ds k :
  ∃ h : FollowRow → FollowRow,
    (∀ tbl, mark_all now k db ds tbl = h <$> tbl) ∧ ∀ r, same_edge r (h r).
Proof.
  revert k. induction ds as [|d ds IH]; intros k.
  - exists (fun r => r). split; [intros; simpl; by rewrite list_fmap_id|].
    apply same_edge_refl.
  - simpl. destruct (db !! d) as [i|].
    + destruct (IH (S k)) as (h & Hh & Hsame).
      exists (h ∘ fun r => if decide (id r = i)
                           then mark_unfollowed (now k) r else r).
      split.
      * intros tbl. rewrite Hh. unfold update_id. by rewrite list_fmap_compose.
      * intros r. simpl.
        destruct (Hsame (if decide (id r = i)
                         then mark_unfollowed (now k) r else r))
          as (H1 & H2 & H3 & H4 & H5).
        unfold same_edge. rewrite H1, H2, H3, H4, H5.
        by destruct (decide (id r = i)).
    + exists (fun r => r). split; [intros; by rewrite list_fmap_id|].
      apply same_edge_refl.
Qed.

(** X4.  Whatever the table and the observed set, the unfollow pass adds
    no row, removes none, and leaves the key, the pair, [created_at] and
    [last_verified_at] of every row as they were. *)
Theorem unfollow_pass_keeps_rows now did F tbl :
  Forall2 same_edge tbl (fst (apply_unfollows now did F tbl)).
Proof.
  unfold apply_unfollows. simpl.
  destruct (mark_all_same_edge now
              (db_follows_of (select (is_active_of did) tbl))
              (elements (dom (db_follows_of (select (is_active_of did) tbl)) ∖ F))
              0) as (h & -> & Hsame).
  apply Forall2_fmap_r, Forall_Forall2_diag, Forall_forall. intros r _.
  apply Hsame.
Qed.

(** X5.  On a follows table with unique ids and at most one row per pair:
    when the first follows request of a pass fails, the fetch comes back
    empty and the pass takes every stored active edge of the account for an
    unfollow: it reports as many unfollows as there were active edges, and
    none is active afterwards. *)
Theorem failed_fetch_retires_every_edge fuel server now did tbl :
  unique_ids tbl → unique_edges tbl →
  server (GetFollows did None) = Failed →
  ∃ tbl',
    process_account_unfollows (S fuel) server now did tbl
    = Some (tbl', size (stored_active did tbl)) ∧
    stored_active did tbl' = ∅.
Proof.
  intros Hids Hu Hfail.
  exists (fst (apply_unfollows now did ∅ tbl)). split.
  - unfold process_account_unfollows, get_all_follows. simpl. rewrite Hfail.
    rewrite (surjective_pairing (apply_unfollows now did ∅ tbl)).
    rewrite apply_unfollows_count. simpl. do 3 f_equal. set_solver.
  - rewrite (retired_by_active now did ∅ tbl); [set_solver|].
    by apply apply_unfollows_rows.
Qed.

Lemma failed_fetch_retires_every_edge_witness :
  ∃ tbl',
    process_account_unfollows 1 (fun _ => Failed) (fun _ => 9) "did:x" two_edges
    = Some (tbl', size (stored_active "did:x" two_edges)) ∧
    stored_active "did:x" tbl' = ∅.
Proof.
  apply (failed_fetch_retires_every_edge 0 (fun _ => Failed) (fun _ => 9)
           "did:x" two_edges).
  - apply unique_ids_run, unique_ids_nil.
  - apply unique_edges_run, unique_edges_nil.
  - reflexivity.
Defined.

(** X6.  On a table with unique keys and at most one row per pair, a
    second unfollow pass for the same account against the same observed
    set, at whatever later time, detects nothing and leaves the table as
    the first pass left it. *)
Theorem unfollow_pass_twice now1 now2 did F tbl :
  unique_ids tbl → unique_edges tbl →
  apply_unfollows now2 did F (fst (apply_unfollows now1 did F tbl))
  = (fst (apply_unfollows now1 did F tbl), 0%nat).
Proof.
  intros Hids Hu.
  pose proof (apply_unfollows_rows now1 did F tbl Hids Hu) as Hrows.
  set (tbl1 := fst (apply_unfollows now1 did F tbl)) in *.
  assert (stored_active did tbl1 ∖ F = ∅) as Hgone.
  { rewrite (retired_by_active _ _ _ _ _ Hrows). set_solver. }
  unfold apply_unfollows. cbv zeta. rewrite dom_db_follows_of, Hgone.
  by rewrite elements_empty, size_empty.
Qed.

Lemma unfollow_pass_twice_witness :
  apply_unfollows (fun _ => 30) "did:x" {[ "did:b" ]}
    (fst (apply_unfollows (fun _ => 9) "did:x" {[ "did:b" ]} two_edges))
  = (fst (apply_unfollows (fun _ => 9) "did:x" {[ "did:b" ]} two_edges), 0%nat).
Proof.
  apply (unfollow_pass_twice (fun _ => 9) (fun _ => 30) "did:x" {[ "did:b" ]}
           two_edges).
  - apply unique_ids_run, unique_ids_nil.
  - apply unique_edges_run, unique_edges_nil.
Defined.

Lemma elem_of_add_dids page (acc : gset string) d :
  d ∈ add_dids page acc ↔
  d ∈ acc ∨ (d ≠ "" ∧ ∃ a, a ∈ page ∧ actor_did a = Some d).
Proof.
  unfold add_dids. revert acc. induction page as [|f page IH]; intros acc.
  - simpl. split; [by left|]. intros [H|(_ & a & Ha & _)]; [done|].
    by apply not_elem_of_nil in Ha.
  - simpl. rewrite IH. clear IH.
    assert (d ∈ match actor_did f with
                | Some d0 => if truthy (Some d0) then {[d0]} ∪ acc else acc
                | None => acc
                end ↔ d ∈ acc ∨ (d ≠ "" ∧ actor_did f = Some d)) as ->.
    { destruct (actor_did f) as [d0|]; [|naive_solver].
      simpl. destruct (String.eqb_spec d0 ""); simpl.
      - subst d0. split; [by left|]. intros [H|[Hne Heq]]; [done|congruence].
      - rewrite elem_of_union, elem_of_singleton. split.
        + intros [->|H]; [right|left]; done.
        + intros [H|[_ Heq]]; [by right|left; congruence]. }
    split.
    + intros [[H|[Hne Hf]]|(Hne & a & Ha & Hd)]; [by left|..].
      * right. split; [done|]. exists f. split; [by left|done].
      * right. split; [done|]. exists a. split; [by right|done].
    + intros [H|(Hne & a & Ha & Hd)]; [by left; left|].
      apply elem_of_cons in Ha as [->|Ha]; [left; right; done|].
      right. split; [done|]. by exists a.
Qed.

(** X7.  Every DID in the set [get_all_follows] returns is non-empty and
    was listed in the [follows] array of a page the server answered with a
    200 for that account. *)
Theorem get_all_follows_sound fuel server did F d :
  get_all_follows fuel server did = Some F → d ∈ F →
  ∃ cursor headers body,
    server (GetFollows did cursor) = Ok200 headers body ∧ lists body d.
Proof.
  unfold get_all_follows.
  assert (∀ cursor (acc : gset string),
            get_all_follows_loop fuel server did cursor acc = Some F → d ∈ F →
            d ∈ acc ∨ ∃ cursor headers body,
              server (GetFollows did cursor) = Ok200 headers body ∧
              lists body d) as Hloop.
  { induction fuel as [|fuel IH]; intros cursor acc; [done|]. simpl.
    destruct (server _) as [headers body|] eqn:Hsrv.
    - destruct (truthy (get_str "cursor" body)).
      + intros Hrun Hd. destruct (IH _ _ Hrun Hd) as [Hacc|?]; [|by right].
        apply elem_of_add_dids in Hacc as [?|Hl]; [by left|]. right. eauto.
      + intros [= <-] Hd.
        apply elem_of_add_dids in Hd as [?|Hl]; [by left|]. right. eauto.
    - intros [= <-] Hd. by left. }
  intros Hrun Hd. destruct (Hloop None ∅ Hrun Hd) as [Hacc|?]; [|done].
  by apply not_elem_of_empty in Hacc.
Qed.

Lemma get_all_follows_sound_witness :
  ∃ cursor headers body,
    two_follows (GetFollows "did:x" cursor) = Ok200 headers body ∧
    lists body "did:b".
Proof.
  apply (get_all_follows_sound 1 two_follows "did:x" {[ "did:a"; "did:b" ]}
           "did:b").
  - by vm_compute.
  - set_solver.
Defined.

(** X8.  When the server answers every page of an account's follow list
    with a 200, from the first request to the first page without a cursor,
    and the fuel covers the pages, [get_all_follows] returns exactly the
    non-empty DIDs listed on those pages. *)
Theorem get_all_follows_complete fuel server did pages :
  Chain server did None pages → (length pages ≤ fuel)%nat →
  ∃ F,
    get_all_follows fuel server did = Some F ∧
    ∀ d, d ∈ F ↔ ∃ body, body ∈ pages ∧ lists body d.
Proof.
  unfold get_all_follows. intros Hchain.
  assert (∀ cursor (acc : gset string) fuel,
            Chain server did cursor pages → (length pages ≤ fuel)%nat →
            ∃ F, get_all_follows_loop fuel server did cursor acc = Some F ∧
                 ∀ d, d ∈ F ↔ d ∈ acc ∨ ∃ body, body ∈ pages ∧ lists body d)
    as Hloop.
  { clear. intros cursor acc fuel Hchain. revert acc fuel.
    induction Hchain as [cursor headers body Hsrv Hend
                        |cursor headers body rest Hsrv Hmore Hchain IH];
      intros acc fuel Hlen; (destruct fuel as [|fuel]; [simpl in Hlen; lia|]);
      simpl; rewrite Hsrv.
    - rewrite Hend. eexists. split; [done|]. intros d.
      rewrite elem_of_add_dids. unfold lists. split.
      + intros [?|Hl]; [by left|]. right. exists body. split; [by left|done].
      + intros [?|(body' & Hin & Hl)]; [by left|].
        apply list_elem_of_singleton in Hin. subst body'. by right.
    - rewrite Hmore. simpl in Hlen.
      destruct (IH (add_dids (get_actors "follows" body) acc) fuel)
        as (F & -> & HF); [lia|].
      exists F. split; [done|]. intros d. rewrite HF, elem_of_add_dids.
      unfold lists. split.
      + intros [[?|Hl]|(body' & Hin & Hl)]; [by left|..].
        * right. exists body. split; [by left|done].
        * right. exists body'. split; [by right|done].
      + intros [?|(body' & Hin & Hl)]; [by left; left|].
        apply elem_of_cons in Hin as [->|Hin]; [left; right; done|].
        right. exists body'. done. }
  intros Hlen. destruct (Hloop None ∅ fuel Hchain Hlen) as (F & -> & HF).
  exists F. split; [done|]. intros d. rewrite HF. split; [|by right].
  intros [Hacc|?]; [|done]. by apply not_elem_of_empty in Hacc.
Qed.

Lemma get_all_follows_complete_witness :
  ∃ F,
    get_all_follows 1 two_follows "did:x" = Some F ∧
    ∀ d, d ∈ F ↔
         ∃ body,
           body ∈ [ ({[ "follows" := VActors [mkActor (Some "did:a") (Some "a.test");
                                              mkActor (Some "did:b") (Some "b.test")] ]}
                     : gmap string Value) ] ∧
           lists body d.
Proof.
  apply (get_all_follows_complete 1 two_follows "did:x").
  - eapply chain_last; [reflexivity|by vm_compute].
  - simpl. lia.
Defined.

Lemma add_follow_extends now a b tbl :
  ∃ added,
    snd (add_follow_relationship now a b tbl) = tbl ++ added ∧
    (length added ≤ 1)%nat.
Proof.
  unfold add_follow_relationship.
  destruct (select (is_pair a b) tbl) as [|r rest]; simpl.
  - exists [new_row tbl a b now]. split; [done|simpl; lia].
  - exists []. rewrite app_nil_r. split; [done|simpl; lia].
Qed.

(** X9.  A crawl only ever appends to [follows]: the table before is a
    prefix of the table after, and at most one row is appended per listed
    follow and per listed follower. *)
Theorem crawl_appends did follows followers tbl :
  ∃ added,
    crawl did follows followers tbl = tbl ++ added ∧
    (length added ≤ length follows + length followers)%nat.
Proof.
  unfold crawl.
  assert (∀ (g : Table → Z * string → Table) l t,
            (∀ t x, ∃ added, g t x = t ++ added ∧ (length added ≤ 1)%nat) →
            ∃ added, foldl g t l = t ++ added ∧ (length added ≤ length l)%nat)
    as Hfold.
  { intros g l. induction l as [|x l IH]; intros t Hg; simpl.
    - exists []. by rewrite app_nil_r.
    - destruct (Hg t x) as (a1 & -> & Hl1).
      destruct (IH (t ++ a1) Hg) as (a2 & -> & Hl2).
      exists (a1 ++ a2). rewrite app_assoc, length_app. split; [done|lia]. }
  destruct (Hfold (fun t f => snd (add_follow_relationship (fst f) did (snd f) t))
              follows tbl) as (a1 & -> & Hl1).
  { intros t x. apply add_follow_extends. }
  destruct (Hfold (fun t f => snd (add_follow_relationship (fst f) (snd f) did t))
              followers (tbl ++ a1)) as (a2 & -> & Hl2).
  { intros t x. apply add_follow_extends. }
  exists (a1 ++ a2). rewrite app_assoc, length_app. split; [done|lia].
Qed.

End Edges.

(** ** The accounts table *)

Module AccountFacts.
Import Accounts.

Lemma filter_did_fmap did did' handle (accounts : list Account) :
  filter (fun a => acc_did a = did')
         ((fun a => if decide (acc_did a = did) then set_handle handle a else a)
            <$> accounts)
  = (fun a => if decide (acc_did a = did) then set_handle handle a else a)
      <$> filter (fun a => acc_did a = did') accounts.
Proof.
  induction accounts as [|x accounts IH]; [done|].
  rewrite fmap_cons, !filter_cons.
  assert (acc_did (if decide (acc_did x = did) then set_handle handle x else x)
          = acc_did x) as Hdid by by destruct (decide (acc_did x = did)).
  rewrite Hdid. destruct (decide (acc_did x = did')); [|done].
  by rewrite fmap_cons, IH.
Qed.

(** X10.  [add_bluesky_account] keeps the accounts table at one row per
    DID at most, and afterwards the table holds exactly one row for the
    DID, carrying the handle that was passed. *)
Theorem add_bluesky_account_one_row did handle profile_data accounts :
  unique_dids accounts →
  unique_dids (snd (add_bluesky_account did handle profile_data accounts)) ∧
  ∃ a,
    filter (fun a => acc_did a = did)
           (snd (add_bluesky_account did handle profile_data accounts)) = [a] ∧
    acc_handle a = handle.
Proof.
  intros Hu. unfold add_bluesky_account.
  destruct (filter (fun a => acc_did a = did) accounts) as [|account rest]
    eqn:Hsel; simpl.
  - assert (acc_did (account_data did handle profile_data) = did ∧
            acc_handle (account_data did handle profile_data) = handle)
      as [Hd Hh].
    { unfold account_data. destruct profile_data as [p|]; [|done].
      by destruct (bool_decide (p = ∅)). }
    split.
    + intros did'. rewrite filter_app, length_app, filter_cons, filter_nil.
      specialize (Hu did').
      destruct (decide (acc_did (account_data did handle profile_data) = did'))
        as [Heq|_]; simpl; [|lia].
      rewrite Hd in Heq. subst did'. rewrite Hsel. simpl. lia.
    + eexists. rewrite filter_app, Hsel, filter_cons_True by done. done.
  - assert (rest = []) as ->.
    { specialize (Hu did). rewrite Hsel in Hu. destruct rest; [done|].
      simpl in Hu. lia. }
    assert (acc_did account = did) as Hacc.
    { assert (account ∈ filter (fun a => acc_did a = did) accounts) as Hin
        by (rewrite Hsel; by left).
      by apply list_elem_of_filter in Hin as [? _]. }
    destruct (decide (acc_handle account = handle)) as [Hsame|Hdiff].
    + split; [done|]. exists account. by rewrite Hsel.
    + split.
      * intros did'. rewrite filter_did_fmap, length_fmap. apply Hu.
      * exists (set_handle handle account).
        rewrite filter_did_fmap, Hsel. simpl. by rewrite decide_True.
Qed.

Lemma add_bluesky_account_one_row_witness :
  unique_dids (snd (add_bluesky_account "did:a" "new.test" None
                      [mkAccount "did:a" "old.test" None None None])) ∧
  ∃ a,
    filter (fun a => acc_did a = "did:a")
           (snd (add_bluesky_account "did:a" "new.test" None
                   [mkAccount "did:a" "old.test" None None None])) = [a] ∧
    acc_handle a = "new.test".
Proof.
  apply (add_bluesky_account_one_row "did:a" "new.test" None
           [mkAccount "did:a" "old.test" None None None]).
  intros did. rewrite filter_cons, filter_nil.
  destruct (decide _); simpl; lia.
Defined.

(** X11.  For an account that is stored already, [add_bluesky_account]
    returns the row as it was read, so with the old handle when the handle
    has changed, and it never writes the profile columns: every stored row
    keeps its DID, display name, description and avatar, whatever profile
    data is passed. *)
Theorem add_bluesky_account_existing did handle profile_data accounts account :
  account ∈ accounts → acc_did account = did →
  ∃ old,
    fst (add_bluesky_account did handle profile_data accounts) = Some old ∧
    old ∈ accounts ∧ acc_did old = did ∧
    Forall2 (fun a a' =>
               acc_did a' = acc_did a ∧ display_name a' = display_name a ∧
               description a' = description a ∧ avatar_url a' = avatar_url a)
            accounts
            (snd (add_bluesky_account did handle profile_data accounts)).
Proof.
  intros Hin Hdid. unfold add_bluesky_account.
  destruct (filter (fun a => acc_did a = did) accounts) as [|old rest] eqn:Hsel.
  - exfalso. eapply filter_nil_not_elem_of; [exact Hsel| |exact Hin]. done.
  - assert (old ∈ filter (fun a => acc_did a = did) accounts) as Hold
      by (rewrite Hsel; by left).
    apply list_elem_of_filter in Hold as [Hd Hold].
    exists old. simpl. split; [done|]. split; [done|]. split; [done|].
    destruct (decide (acc_handle old = handle)).
    + apply Forall_Forall2_diag, Forall_forall. done.
    + apply Forall2_fmap_r, Forall_Forall2_diag, Forall_forall.
      intros a _. cbn. by destruct (decide (acc_did a = did)).
Qed.

Lemma add_bluesky_account_existing_witness :
  ∃ old,
    fst (add_bluesky_account "did:a" "new.test"
           (Some {[ "displayName" := Some "A" ]})
           [mkAccount "did:a" "old.test" None None None]) = Some old ∧
    old ∈ [mkAccount "did:a" "old.test" None None None] ∧
    acc_did old = "did:a" ∧
    Forall2 (fun a a' =>
               acc_did a' = acc_did a ∧ display_name a' = display_name a ∧
               description a' = description a ∧ avatar_url a' = avatar_url a)
            [mkAccount "did:a" "old.test" None None None]
            (snd (add_bluesky_account "did:a" "new.test"
                    (Some {[ "displayName" := Some "A" ]})
                    [mkAccount "did:a" "old.test" None None None])).
Proof.
  apply (add_bluesky_account_existing "did:a" "new.test"
           (Some {[ "displayName" := Some "A" ]})
           [mkAccount "did:a" "old.test" None None None]
           (mkAccount "did:a" "old.test" None None None)).
  - by left.
  - reflexivity.
Defined.

End AccountFacts.

(** ** Further properties of the client *)

Module ClientMore.
Import Api Worker Scenarios ClientFacts.


(** X13.  A client with credentials and no token signs in when it is
    initialised; when the session request is answered with a non-empty
    [accessJwt], at a clock reading other than zero, the client holds that
    token, the token counts as fresh for the next 3300 seconds and as
    expired from then on. *)
Theorem sign_in_makes_token_fresh e w headers body jwt :
  truthy (username (api_client w)) = true →
  truthy (password (api_client w)) = true →
  truthy (auth_token (api_client w)) = false →
  server e (length (requests w))
         (CreateSession (username (api_client w)) (password (api_client w)))
  = Ok200 headers body →
  get_str "accessJwt" body = Some jwt → jwt ≠ "" → clock w ≠ 0 →
  let c' := api_client (snd (initialize e w)) in
  auth_token c' = Some jwt ∧
  (∀ t, t < clock w + 3300 → is_token_expired c' t = false) ∧
  (∀ t, clock w + 3300 ≤ t → is_token_expired c' t = true).
Proof.
  intros Hu Hp Htok Hsrv Hjwt Hne Hclk.
  unfold initialize, bind, get_client. rewrite Hu, Hp, Htok. simpl.
  unfold authenticate, bind, get_client, http, time, set_client. simpl.
  rewrite Hsrv. simpl. rewrite Hjwt. split; [done|].
  assert (truthy (Some jwt) = true) as Hjt.
  { simpl. by destruct (String.eqb_spec jwt ""). }
  unfold is_token_expired. simpl token_created_at. simpl auth_token.
  simpl token_expires_in. rewrite Hjt. simpl.
  rewrite (proj2 (Z.eqb_neq (clock w) 0) Hclk). simpl.
  split; intros t Ht; [apply Z.leb_gt|apply Z.leb_le]; lia.
Qed.

Lemma sign_in_makes_token_fresh_witness :
  let w := world_at 1000 (new_client (Some "me.test") (Some "secret")) in
  let e := mkEnv (fun _ _ => Ok200 ∅ {[ "accessJwt" := VStr "jwt" ]})
                 (fun _ => false) (fun _ => []) (fun _ => [])
                 (fun _ => false) (fun _ => 2) 2 in
  let c' := api_client (snd (initialize e w)) in
  auth_token c' = Some "jwt" ∧
  (∀ t, t < clock w + 3300 → is_token_expired c' t = false) ∧
  (∀ t, clock w + 3300 ≤ t → is_token_expired c' t = true).
Proof.
  intros w e.
  apply (sign_in_makes_token_fresh e w ∅ {[ "accessJwt" := VStr "jwt" ]} "jwt");
    try reflexivity; discriminate.
Defined.

(** X14.  While the server refuses the session request, a client with
    credentials and no token asks for a session twice on every follows
    call, once when it is initialised and once in [_check_rate_limit],
    without a pause between the two, and then sends the follows request
    all the same. *)
Theorem refused_sign_in_is_tried_twice e did cursor w :
  truthy (username (api_client w)) = true →
  truthy (password (api_client w)) = true →
  truthy (auth_token (api_client w)) = false →
  (∀ k u p, server e k (CreateSession u p) = Failed) →
  let session :=
    (clock w, CreateSession (username (api_client w))
                            (password (api_client w))) in
  ∃ t,
    requests (snd (get_follows e did cursor w))
    = requests w ++
      [session; session;
       (t, GetFollows did (if truthy cursor then cursor else None))].
Proof.
  intros Hu Hp Htok Hrefuse session.
  assert (∀ w0, authenticate e w0
                = (Ret tt,
                   mkWorld (clock w0) (api_client w0)
                     (requests w0 ++
                      [(clock w0, CreateSession (username (api_client w0))
                                                (password (api_client w0)))])
                     (store_log w0) (draws w0) (total_processed w0))) as Hauth.
  { intros w0. unfold authenticate, bind, get_client, http. simpl.
    by rewrite Hrefuse. }
  assert (∀ t, is_token_expired (api_client w) t = true) as Hexp.
  { intros t. unfold is_token_expired. rewrite Htok.
    by destruct (token_created_at (api_client w)). }
  unfold get_follows. unfold bind at 1. unfold initialize, bind at 1.
  unfold get_client at 1. rewrite Hu, Hp, Htok. simpl negb. simpl andb.
  rewrite Hauth. unfold bind at 1. unfold check_rate_limit.
  unfold bind at 1. unfold get_client at 1. unfold bind at 1.
  unfold time at 1. unfold bind at 1. cbn [api_client clock].
  rewrite Hu, Hp, Hexp. simpl andb. rewrite Hauth. cbn [api_client clock requests].
  unfold try_except, bind, get_client, time, sleep, ret, http.
  cbn [api_client clock requests].
  destruct (rate_limit_remaining (api_client w) <? 10); cbv beta iota.
  - destruct (0 <? _); cbv beta iota; cbn [api_client clock requests];
      (destruct (server e _ _); cbv beta iota; [answered|]; cbn;
       eexists; by rewrite <- !app_assoc).
  - destruct (server e _ _); cbv beta iota; [answered|]; cbn;
      eexists; by rewrite <- !app_assoc.
Qed.

Lemma refused_sign_in_is_tried_twice_witness :
  ∃ t,
    requests (snd (get_follows busy_queue "did:x" None
                     (world_at 1000 (new_client (Some "me.test") (Some "secret")))))
    = [(1000, CreateSession (Some "me.test") (Some "secret"));
       (1000, CreateSession (Some "me.test") (Some "secret"));
       (t, GetFollows "did:x" None)].
Proof.
  apply (refused_sign_in_is_tried_twice busy_queue "did:x" None
           (world_at 1000 (new_client (Some "me.test") (Some "secret"))));
    reflexivity.
Defined.

(** X15.  When the follows request fails, [get_follows] returns the
    dictionary with an empty [follows] list and no cursor instead of
    raising, and the rate-limit budget stays as it was; the caller cannot
    tell the failure from the end of the list. *)
Theorem get_follows_failure_looks_empty e did cursor w :
  (∀ k c, server e k (GetFollows did c) = Failed) →
  ∃ w',
    get_follows e did cursor w = (Ret {[ "follows" := VActors [] ]}, w') ∧
    rate_limit_remaining (api_client w') = rate_limit_remaining (api_client w) ∧
    rate_limit_reset (api_client w') = rate_limit_reset (api_client w).
Proof.
  intros Hfail.
  destruct (initialize_spec e w)
    as (w1 & Hinit & _ & _ & _ & Hrem1 & Hrst1 & _).
  destruct (check_rate_limit_spec e w1)
    as (w2 & Hchk & _ & _ & _ & Hrem2 & Hrst2 & _).
  unfold get_follows, bind at 1 2. rewrite Hinit, Hchk.
  unfold try_except, bind, http. rewrite Hfail.
  eexists. split; [done|]. simpl. by rewrite Hrem2, Hrst2, Hrem1, Hrst1.
Qed.

Lemma get_follows_failure_looks_empty_witness :
  ∃ w',
    get_follows busy_queue "did:x" None (world_at 1000 (new_client None None))
    = (Ret {[ "follows" := VActors [] ]}, w') ∧
    rate_limit_remaining (api_client w') = 100 ∧
    rate_limit_reset (api_client w') = 0.
Proof.
  apply (get_follows_failure_looks_empty busy_queue "did:x" None
           (world_at 1000 (new_client None None))).
  reflexivity.
Defined.



End ClientMore.

(** ** Further properties of the traversal *)

Module TraversalMore.
Import Api Worker Pages Scenarios ClientFacts TraversalFacts.

Lemma never_raises_bind {A B} (m : M A) (f : A → M B) :
  never_raises m → (∀ a, never_raises (f a)) → never_raises (bind m f).
Proof.
  intros Hm Hf w. unfold bind. specialize (Hm w).
  destruct (m w) as [[a| |] w']; simpl in *; [apply Hf|done..].
Qed.

Lemma never_raises_try_pass {A} (body : M A) (a : A) :
  never_raises (try_except body (ret a)).
Proof. intros w. unfold try_except. by destruct (body w) as [[?| |] w']. Qed.

Lemma never_raises_for_each {A} (xs : list A) (body : A → M unit) :
  (∀ x, never_raises (body x)) → never_raises (for_each xs body).
Proof.
  intros Hb. induction xs as [|x xs IH]; simpl; [done|].
  apply never_raises_bind; [apply Hb|done].
Qed.

Lemma never_raises_try {A} (body handler : M A) :
  never_raises handler → never_raises (try_except body handler).
Proof.
  intros Hh w. unfold try_except.
  destruct (body w) as [[?| |] w']; [done|apply Hh|done].
Qed.

Lemma process_account_contained e fuel did handle :
  never_raises (process_account e fuel did handle).
Proof.
  unfold process_account. apply never_raises_try, never_raises_try_pass.
Qed.

(** X17.  No exception escapes [_process_account]: whatever the server
    answers and whichever store calls fail, it does not raise. *)
Theorem process_account_never_raises e fuel did handle w :
  fst (process_account e fuel did handle w) ≠ Raised.
Proof. apply process_account_contained. Qed.

Lemma main_loop_never_raises e fuel page_fuel batch_size max_accounts days :
  never_raises (main_loop e fuel page_fuel batch_size max_accounts days).
Proof.
  induction fuel as [|fuel IH]; [done|]. cbn [main_loop].
  apply never_raises_bind; [done|]. intros total.
  destruct (total <? max_accounts); [|done].
  apply never_raises_bind; [apply never_raises_try_pass|]. intros accounts.
  destruct accounts as [|a accounts].
  - apply never_raises_bind; [apply never_raises_try_pass|].
    intros []; [apply IH|done].
  - apply never_raises_bind.
    { apply never_raises_for_each. intros x. unfold visit.
      apply never_raises_bind; [apply process_account_contained|].
      intros _. repeat (apply never_raises_bind; [done|]; intros ?). done. }
    intros _. apply never_raises_bind; [done|]. intros total'.
    apply never_raises_bind; [|intros _; apply IH].
    destruct (_ =? 0); [apply never_raises_try_pass|done].
Qed.

(** X18.  No exception escapes [start]: failures of the server and of the
    store are absorbed account by account and call by call, so a run ends
    by returning its count or goes on. *)
Theorem start_never_raises e fuel page_fuel seeds max_accounts days w :
  fst (start e fuel page_fuel seeds max_accounts days w) ≠ Raised.
Proof.
  unfold start. unfold bind at 1.
  assert (∃ w1, (match seeds with
                 | [] => ret tt
                 | _ :: _ => add_seed_accounts e seeds
                 end) w = (Ret tt, w1)) as [w1 ->].
  { destruct seeds; [by exists w|apply add_seed_accounts_returns]. }
  unfold bind at 1. unfold set_total at 1. unfold bind.
  set (w2 := mkWorld _ _ _ _ _ 0).
  pose proof (main_loop_never_raises e fuel page_fuel (Z.min 10 max_accounts)
                max_accounts days w2) as Hloop.
  by destruct (main_loop e fuel page_fuel _ max_accounts days w2)
    as [[[]| |] w3].
Qed.

Lemma store_user_returns e did handle w :
  ∃ w', store_user e did handle w = (Ret tt, w') ∧ requests w' = requests w ∧
        clock w' = clock w ∧ api_client w' = api_client w.
Proof.
  unfold store_user, try_except, bind, store, ret.
  destruct (store_raises e _); simpl; eauto.
Qed.

(** X19.  From one page of follows, [_collect_all_follows] keeps the DIDs
    of the entries that carry both a non-empty DID and a non-empty handle,
    in page order, after what it had; entries without a handle are dropped
    from the follow list, a failing account upsert changes nothing in it,
    and no request is sent. *)
Theorem collect_page_keeps_listed e follows follows_dids w :
  ∃ w',
    collect_page e follows follows_dids w
    = (Ret (follows_dids ++ kept_dids follows), w') ∧
    requests w' = requests w.
Proof.
  revert follows_dids w.
  induction follows as [|f follows IH]; intros acc w; cbn [collect_page].
  - exists w. unfold ret. by rewrite app_nil_r.
  - assert (kept_dids (f :: follows)
            = match actor_did f, actor_handle f with
              | Some d, Some h =>
                  if truthy (Some d) && truthy (Some h)
                  then d :: kept_dids follows else kept_dids follows
              | _, _ => kept_dids follows
              end) as ->.
    { unfold kept_dids. cbn [omap list_omap].
      destruct (actor_did f), (actor_handle f); try done.
      by destruct (truthy _ && truthy _). }
    destruct (actor_did f) as [d|]; [|apply IH].
    destruct (actor_handle f) as [h|]; [|apply IH].
    destruct (truthy (Some d) && truthy (Some h)); [|apply IH].
    unfold bind. destruct (store_user_returns e d h w) as (w1 & -> & Hreq & _).
    destruct (IH (acc ++ [d]) w1) as (w' & -> & Hreq').
    exists w'. rewrite <- app_assoc. simpl. split; [done|congruence].
Qed.

Lemma get_follows_down e did cursor w :
  (∀ k c, server e k (GetFollows did c) = Failed) →
  ∃ w', get_follows e did cursor w = (Ret {[ "follows" := VActors [] ]}, w').
Proof.
  intros Hfail.
  destruct (initialize_spec e w) as (w1 & Hinit & _).
  destruct (check_rate_limit_spec e w1) as (w2 & Hchk & _).
  unfold get_follows, bind at 1 2. rewrite Hinit, Hchk.
  unfold try_except, bind, http. rewrite Hfail. eauto.
Qed.

(** X20.  While the follows endpoint fails, [_collect_all_follows] returns
    the empty list, as it does for an account that follows nobody, instead
    of raising. *)
Theorem collect_all_follows_failure_is_empty e fuel did w :
  (∀ k c, server e k (GetFollows did c) = Failed) →
  ∃ w', collect_all_follows e (S fuel) did w = (Ret [], w').
Proof.
  intros Hfail. unfold collect_all_follows. simpl. unfold bind.
  destruct (get_follows_down e did None w Hfail) as (w' & ->).
  exists w'. done.
Qed.

Lemma collect_all_follows_failure_is_empty_witness :
  ∃ w', collect_all_follows busy_queue 1 "did:x"
          (world_at 1000 (new_client None None)) = (Ret [], w').
Proof.
  apply (collect_all_follows_failure_is_empty busy_queue 0 "did:x"
           (world_at 1000 (new_client None None))).
  reflexivity.
Defined.

(** X21.  Seed handles without a dot are skipped: seeding with such
    handles only sends no request, makes no store call and leaves the
    world as it was. *)
Theorem seeds_without_dot_are_skipped e handles w :
  Forall (fun handle => has_dot handle = false) handles →
  add_seed_accounts e handles w = (Ret tt, w).
Proof.
  unfold add_seed_accounts. induction 1 as [|handle handles Hdot _ IH]; simpl.
  - done.
  - unfold bind, try_except. rewrite Hdot. simpl. exact IH.
Qed.

Lemma seeds_without_dot_are_skipped_witness :
  add_seed_accounts busy_queue ["alice"; "bob"]
    (world_at 1000 (new_client None None))
  = (Ret tt, world_at 1000 (new_client None None)).
Proof.
  apply (seeds_without_dot_are_skipped busy_queue ["alice"; "bob"]).
  by repeat constructor.
Defined.

(** X22.  With [max_accounts] zero or negative and no seeds, [start]
    returns zero at once: it sends no request, makes no store call, not
    even to ask the queue, and lets no time pass. *)
Theorem start_with_no_budget e fuel page_fuel max_accounts days w :
  max_accounts ≤ 0 →
  start e (S fuel) page_fuel [] max_accounts days w
  = (Ret 0, mkWorld (clock w) (api_client w) (requests w) (store_log w)
                    (draws w) 0).
Proof.
  intros Hmax. unfold start, bind, ret, set_total. simpl.
  unfold bind, get_total. simpl.
  by rewrite (proj2 (Z.ltb_ge 0 max_accounts)) by lia.
Qed.

Lemma start_with_no_budget_witness :
  start busy_queue 1 1 [] 0 7 (world_at 1000 (new_client None None))
  = (Ret 0, mkWorld 1000 (new_client None None) [] [] 0 0).
Proof.
  apply (start_with_no_budget busy_queue 0 1 0 7
           (world_at 1000 (new_client None None))).
  lia.
Defined.

(** *** Requests of the followers sample *)

Lemma sends_nothing_ret {A} (a : A) : sends_nothing (ret a).
Proof. by intros w. Qed.

Lemma sends_nothing_bind {A B} (m : M A) (f : A → M B) :
  sends_nothing m → (∀ a, sends_nothing (f a)) → sends_nothing (bind m f).
Proof.
  intros Hm Hf w. unfold bind. specialize (Hm w).
  destruct (m w) as [[a| |] w']; simpl in *; [|done..].
  by rewrite Hf.
Qed.

Lemma sends_nothing_try {A} (body handler : M A) :
  sends_nothing body → sends_nothing handler →
  sends_nothing (try_except body handler).
Proof.
  intros Hb Hh w. unfold try_except. specialize (Hb w).
  destruct (body w) as [[a| |] w']; simpl in *; [done| |done].
  by rewrite Hh.
Qed.

Lemma sends_nothing_for_each {A} (xs : list A) (body : A → M unit) :
  (∀ x, sends_nothing (body x)) → sends_nothing (for_each xs body).
Proof.
  intros Hb. induction xs as [|x xs IH]; simpl; [done|].
  apply sends_nothing_bind; [apply Hb|done].
Qed.

Lemma sends_nothing_store e c : sends_nothing (store e c).
Proof. by intros w. Qed.

Lemma sends_nothing_sample_follower e follower :
  sends_nothing (sample_follower e follower).
Proof.
  unfold sample_follower.
  destruct (actor_did follower) as [d|]; [|apply sends_nothing_ret].
  destruct (actor_handle follower) as [h|]; [|apply sends_nothing_ret].
  destruct (truthy (Some d) && truthy (Some h)); [|apply sends_nothing_ret].
  apply sends_nothing_bind.
  { unfold store_user. apply sends_nothing_try; [|apply sends_nothing_ret].
    apply sends_nothing_bind; [apply sends_nothing_store|].
    intros; apply sends_nothing_ret. }
  intros _. apply sends_nothing_bind; [by intros w|]. intros chosen.
  destruct chosen; [|apply sends_nothing_ret].
  apply sends_nothing_bind; [apply sends_nothing_store|].
  intros; apply sends_nothing_ret.
Qed.

Lemma followers_requests_app l1 l2 :
  followers_requests (l1 ++ l2)
  = (followers_requests l1 + followers_requests l2)%nat.
Proof. unfold followers_requests. by rewrite filter_app, length_app. Qed.

Lemma followers_requests_session (b : bool) t u p :
  followers_requests (if b then [(t, CreateSession u p)] else []) = 0%nat.
Proof. by destruct b. Qed.

(** A followers call sends exactly one followers request. *)
Lemma get_followers_one_request e did cursor w :
  ∃ x w',
    get_followers e did cursor w = (Ret x, w') ∧
    followers_requests (requests w') = S (followers_requests (requests w)).
Proof.
  destruct (initialize_spec e w) as (w1 & Hinit & _ & Hreq1 & _).
  destruct (check_rate_limit_spec e w1) as (w2 & Hchk & Hreq2 & _).
  unfold get_followers, bind at 1 2. rewrite Hinit, Hchk.
  unfold try_except, bind, http.
  assert (followers_requests
            (requests w2 ++ [(clock w2, GetFollowers did
                               (if truthy cursor then cursor else None))])
          = S (followers_requests (requests w))) as Hcount.
  { rewrite Hreq2, Hreq1. rewrite !followers_requests_app.
    unfold refresh_due. rewrite !followers_requests_session.
    unfold followers_requests at 2. simpl. lia. }
  destruct (server e _ _) as [headers result|]; cbv beta iota;
    [answered|]; unfold ret; simpl; eauto.
Qed.

Lemma followers_loop_requests e pages did cursor w :
  (followers_requests
     (requests (snd (collect_some_followers_loop e pages did cursor w)))
   ≤ followers_requests (requests w) + pages)%nat.
Proof.
  revert cursor w. induction pages as [|pages IH]; intros cursor w;
    cbn [collect_some_followers_loop]; [simpl; lia|].
  unfold bind at 1.
  destruct (get_followers_one_request e did cursor w) as (x & w1 & -> & Hone).
  destruct (get_actors "followers" x) as [|f followers]; [simpl; lia|].
  unfold bind at 1.
  pose proof (sends_nothing_for_each (f :: followers) (sample_follower e)
                (sends_nothing_sample_follower e) w1) as Hsame.
  destruct (for_each (f :: followers) (sample_follower e) w1)
    as [[[]| |] w2]; simpl in Hsame; [|simpl; rewrite Hsame; lia..].
  destruct (negb (truthy (get_str "cursor" x))); [simpl; rewrite Hsame; lia|].
  unfold bind, sleep.
  set (w3 := mkWorld _ _ _ _ _ _).
  specialize (IH (get_str "cursor" x) w3). simpl in IH.
  rewrite Hsame in IH. lia.
Qed.

(** X23.  The followers sample is bounded: whatever the server answers,
    however many followers there are, [_collect_some_followers] sends at
    most three followers requests. *)
Theorem followers_sample_is_bounded e did w :
  (followers_requests (requests (snd (collect_some_followers e did w)))
   ≤ followers_requests (requests w) + 3)%nat.
Proof. apply followers_loop_requests. Qed.

End TraversalMore.

(** ** The detector's loop over accounts *)

Module DetectorMore.
Import Api Store Detector Core Pages Scenarios StoreFacts.

Lemma retired_by_same_edge now did F r r' :
  retired_by now did F r r' → same_edge r r'.
Proof. by intros [(_ & _ & k & ->)|[_ ->]]. Qed.

Lemma apply_unfollows_unique now did F tbl :
  unique_ids tbl → unique_edges tbl →
  unique_ids (fst (apply_unfollows now did F tbl)) ∧
  unique_edges (fst (apply_unfollows now did F tbl)).
Proof.
  intros Hids Hu. unfold apply_unfollows. simpl. split.
  - by apply unique_ids_mark_all.
  - by apply unique_edges_mark_all.
Qed.

(** X24.  On a table with unique keys and at most one row per pair, a
    detection run over a list of accounts whose fetches all return ends,
    and it touches only the edges of those accounts: every row whose
    follower is not in the list is exactly as it was, no row is added or
    removed, no key, pair or verification time is changed, and a retired
    row stays retired. *)
Theorem detect_unfollows_touches_only_its_accounts fuel server accounts tbl :
  unique_ids tbl → unique_edges tbl →
  (∀ account, account ∈ accounts →
              is_Some (get_all_follows fuel server (snd account))) →
  ∃ tbl',
    detect_unfollows fuel server accounts tbl = Some tbl' ∧
    Forall2 (fun r r' =>
               same_edge r r' ∧
               (follower_did r ∉ snd <$> accounts → r' = r) ∧
               (follow_status r = unfollowed → follow_status r' = unfollowed))
            tbl tbl'.
Proof.
  revert tbl. induction accounts as [|[now did] accounts IH];
    intros tbl Hids Hu Hall.
  - exists tbl. split; [done|]. apply Forall_Forall2_diag, Forall_forall.
    intros r _. split; [by repeat split|done].
  - destruct (Hall (now, did)) as [F HF]; [by left|]. simpl in HF.
    cbn [detect_unfollows]. unfold process_account_unfollows. simpl.
    rewrite HF.
    pose proof (apply_unfollows_rows now did F tbl Hids Hu) as Hrows.
    destruct (apply_unfollows_unique now did F tbl Hids Hu) as [Hids1 Hu1].
    destruct (apply_unfollows now did F tbl) as [tbl1 n]. simpl in *.
    destruct (IH tbl1 Hids1 Hu1) as (tbl' & -> & Hrest).
    { intros account Hin. apply Hall. by right. }
    exists tbl'. split; [done|].
    eapply Forall2_trans; [|exact Hrows|exact Hrest].
    intros x y z Hxy (Hyz & Hother & Hret). simpl in *.
    pose proof (retired_by_same_edge _ _ _ _ _ Hxy) as (E1 & E2 & E3 & E4 & E5).
    destruct Hyz as (G1 & G2 & G3 & G4 & G5).
    split; [unfold same_edge; repeat split; congruence|]. split.
    + intros Hnot. apply not_elem_of_cons in Hnot as [Hne Hnot].
      destruct Hxy as [([Hf _] & _)|[_ ->]]; [done|]. by apply Hother.
    + intros Hx. destruct Hxy as [([_ Ha] & _)|[_ ->]]; [congruence|].
      by apply Hret.
Qed.

Lemma detect_unfollows_touches_only_its_accounts_witness :
  ∃ tbl',
    detect_unfollows 1 one_follow [((fun _ => 9), "did:x")] two_edges
    = Some tbl' ∧
    Forall2 (fun r r' =>
               same_edge r r' ∧
               (follower_did r ∉ snd <$> [((fun _ : nat => 9), "did:x")] → r' = r) ∧
               (follow_status r = unfollowed → follow_status r' = unfollowed))
            two_edges tbl'.
Proof.
  apply (detect_unfollows_touches_only_its_accounts 1 one_follow
           [((fun _ => 9), "did:x")] two_edges).
  - apply unique_ids_run, unique_ids_nil.
  - apply unique_edges_run, unique_edges_nil.
  - intros account Hin. apply list_elem_of_singleton in Hin. subst account.
    exists {[ "did:b" ]}. by vm_compute.
Defined.

End DetectorMore.

(** ** Complete enumeration and recorded outcomes in the worker *)

Module WorkerMore.
Import Api Worker Pages Scenarios ClientFacts TraversalFacts.

Lemma get_follows_answer e did cursor w headers body :
  (∀ k, server e k (GetFollows did (if truthy cursor then cursor else None))
        = Ok200 headers body) →
  reset_overflow headers = None →
  ∃ w', get_follows e did cursor w = (Ret body, w').
Proof.
  intros Hsrv Hfits.
  destruct (initialize_spec e w) as (w1 & Hinit & _).
  destruct (check_rate_limit_spec e w1) as (w2 & Hchk & _).
  unfold get_follows, bind at 1 2. rewrite Hinit, Hchk.
  unfold try_except, bind, http. rewrite Hsrv.
  rewrite (update_rate_limit_spec _ _ Hfits). eauto.
Qed.

Lemma store_user_always_returns e did handle w :
  ∃ w', store_user e did handle w = (Ret tt, w').
Proof.
  unfold store_user, try_except, bind, store, ret.
  destruct (store_raises e _); simpl; eauto.
Qed.

Lemma collect_page_returns e follows acc w :
  ∃ w', collect_page e follows acc w = (Ret (acc ++ kept_dids follows), w').
Proof.
  revert acc w.
  induction follows as [|f follows IH]; intros acc w; cbn [collect_page].
  - exists w. unfold ret. by rewrite app_nil_r.
  - assert (kept_dids (f :: follows)
            = match actor_did f, actor_handle f with
              | Some d, Some h =>
                  if truthy (Some d) && truthy (Some h)
                  then d :: kept_dids follows else kept_dids follows
              | _, _ => kept_dids follows
              end) as ->.
    { unfold kept_dids. cbn [omap list_omap].
      destruct (actor_did f), (actor_handle f); try done.
      by destruct (truthy _ && truthy _). }
    destruct (actor_did f) as [d|]; [|apply IH].
    destruct (actor_handle f) as [h|]; [|apply IH].
    destruct (truthy (Some d) && truthy (Some h)); [|apply IH].
    unfold bind. destruct (store_user_always_returns e d h w) as (w1 & ->).
    destruct (IH (acc ++ [d]) w1) as (w' & ->).
    exists w'. by rewrite <- app_assoc.
Qed.

Lemma collect_loop_complete e did pages :
  (∀ k r, server e k r = server e 0%nat r) →
  (∀ c headers body, server e 0%nat (GetFollows did c) = Ok200 headers body →
                     reset_overflow headers = None) →
  (∀ body, body ∈ pages → truthy (get_str "cursor" body) = true →
           get_actors "follows" body ≠ []) →
  ∀ cursor, Chain (server e 0%nat) did cursor pages →
  ∀ fuel acc w, (length pages ≤ fuel)%nat →
  ∃ w', collect_all_follows_loop e fuel did cursor acc w
        = (Ret (acc ++ listed_on pages), w').
Proof.
  intros Hsame Hfits Hfull cursor Hchain.
  induction Hchain as [cursor headers body Hsrv Hend
                      |cursor headers body rest Hsrv Hmore Hchain IH];
    intros fuel acc w Hlen; (destruct fuel as [|fuel]; [simpl in Hlen; lia|]);
    cbn [collect_all_follows_loop]; unfold bind at 1.
  - destruct (get_follows_answer e did cursor w headers body) as (w1 & ->).
    { intros k. by rewrite Hsame. }
    { by apply (Hfits _ _ _ Hsrv). }
    unfold listed_on. simpl. rewrite app_nil_r.
    destruct (get_actors "follows" body) as [|f follows] eqn:Hfs.
    + exists w1. unfold ret. by rewrite app_nil_r.
    + unfold bind. destruct (collect_page_returns e (f :: follows) acc w1)
        as (w2 & ->).
      rewrite Hend. simpl. eauto.
  - destruct (get_follows_answer e did cursor w headers body) as (w1 & ->).
    { intros k. by rewrite Hsame. }
    { by apply (Hfits _ _ _ Hsrv). }
    destruct (get_actors "follows" body) as [|f follows] eqn:Hfs.
    { exfalso. apply (Hfull body); [by left|done..]. }
    unfold bind at 1.
    destruct (collect_page_returns e (f :: follows) acc w1) as (w2 & ->).
    rewrite Hmore. simpl negb. cbv iota.
    destruct (IH (fun b Hb => Hfull b (list_elem_of_further _ _ _ Hb)) fuel
                 (acc ++ kept_dids (f :: follows))
                 (mkWorld (clock w2 + exploration_delay e) (api_client w2)
                          (requests w2) (store_log w2) (draws w2)
                          (total_processed w2))) as (w' & Hw').
    { simpl in Hlen. lia. }
    unfold bind, sleep. change (negb true) with false. cbv iota beta.
    rewrite Hw'.
    exists w'. unfold listed_on. rewrite fmap_cons. simpl concat.
    by rewrite Hfs, app_assoc.
Qed.

(** X25.  When the server answers every page of an account's follow list
    with a 200, the same way whenever it is asked, no answer to a follows
    request for the account carries a rate-limit reset beyond the range of
    a float (on which [_update_rate_limit] raises and the page is
    dropped), every page that announces a further page lists at least one
    account, and the fuel covers the pages, [_collect_all_follows] returns
    the complete list: the DIDs of all entries with a DID and a handle,
    page after page. *)
Theorem collect_all_follows_complete e fuel did pages w :
  (∀ k r, server e k r = server e 0%nat r) →
  (∀ c headers body, server e 0%nat (GetFollows did c) = Ok200 headers body →
                     reset_overflow headers = None) →
  Chain (server e 0%nat) did None pages →
  (∀ body, body ∈ pages → truthy (get_str "cursor" body) = true →
           get_actors "follows" body ≠ []) →
  (length pages ≤ fuel)%nat →
  ∃ w', collect_all_follows e fuel did w = (Ret (listed_on pages), w').
Proof.
  intros Hsame Hfits Hchain Hfull Hlen. unfold collect_all_follows.
  apply (collect_loop_complete e did pages Hsame Hfits Hfull None Hchain
           fuel [] w Hlen).
Qed.

Lemma collect_all_follows_complete_witness :
  ∃ w',
    collect_all_follows (two_pages second_page) 2 "did:x"
                        (world_at 1000 (new_client None None))
    = (Ret (listed_on
              [ ({[ "follows" := VActors [listed "did:a" "a.test"];
                    "cursor" := VStr "c1" ]} : gmap string Value);
                ({[ "follows" := VActors [listed "did:b" "b.test"] ]}
                 : gmap string Value) ]), w').
Proof.
  apply (collect_all_follows_complete (two_pages second_page) 2 "did:x").
  - reflexivity.
  - intros [c|] headers body; simpl; intros [= <- _]; by vm_compute.
  - eapply chain_next; [reflexivity|by vm_compute|].
    eapply chain_last; [by vm_compute|by vm_compute].
  - intros body Hin _.
    apply elem_of_cons in Hin as [->|Hin]; [by vm_compute|].
    apply list_elem_of_singleton in Hin. subst body. by vm_compute.
  - simpl. lia.
Defined.

Lemma handler_marks_error e did w w' :
  try_except (let* _ := store e (RpcMarkAccountCrawled did error) in ret tt)
             (ret tt) w = (Ret tt, w') →
  ∃ ok, store_log w' = store_log w ++ [(RpcMarkAccountCrawled did error, ok)].
Proof.
  unfold try_except, bind, store, ret.
  destruct (store_raises e _); intros [= <-]; simpl; eauto.
Qed.

(** X26.  Every call of [_process_account] that returns has just tried to
    record an outcome for the account: the last store call in the log is
    [mark_account_crawled] for it.  The outcome is [completed] only
    straight after a [process_account_follows] call for the account that
    the store accepted, and a [failed] or [completed] mark in that place
    was accepted by the store. *)
Theorem process_account_ends_with_mark e fuel did handle w w' :
  process_account e fuel did handle w = (Ret tt, w') →
  ∃ log status ok,
    store_log w' = log ++ [(RpcMarkAccountCrawled did status, ok)] ∧
    (status ≠ error → ok = true) ∧
    (status = completed →
     ∃ log' follows,
       log = log' ++ [(RpcProcessAccountFollows did follows, true)]).
Proof.
  assert (∀ w0, try_except
                  (let* _ := store e (RpcMarkAccountCrawled did error) in ret tt)
                  (ret tt) w0 = (Ret tt, w') →
                ∃ log status ok,
                  store_log w' = log ++ [(RpcMarkAccountCrawled did status, ok)] ∧
                  (status ≠ error → ok = true) ∧
                  (status = completed →
                   ∃ log' follows,
                     log = log' ++ [(RpcProcessAccountFollows did follows, true)]))
    as Hhandler.
  { intros w0 Hrun. destruct (handler_marks_error e did w0 w' Hrun) as [ok Hlog].
    exists (store_log w0), error, ok. split; [done|]. split; done. }
  unfold process_account. unfold try_except at 1. unfold bind at 1.
  destruct (get_profile e handle w) as [[profile| |] w1];
    [|apply Hhandler|done].
  destruct (no_profile profile).
  - unfold bind, store, ret. destruct (store_raises e _); [apply Hhandler|].
    intros [= <-]. simpl. exists (store_log w1), failed, true.
    split; [done|]. split; done.
  - unfold bind at 1.
    destruct (store_user e did handle w1) as [[[]| |] w2];
      [|apply Hhandler|done].
    unfold bind at 1.
    destruct (collect_all_follows e fuel did w2) as [[follows| |] w3];
      [|apply Hhandler|done].
    unfold bind at 1. unfold flip at 1. unfold bind at 1.
    destruct ((if coin e (draws w3) then collect_some_followers e did
               else ret tt) _) as [[[]| |] w5]; [|apply Hhandler|done].
    unfold bind at 1. unfold store at 1.
    destruct (store_raises e (length (store_log w5))); [apply Hhandler|].
    unfold bind, store, ret. cbn [store_log].
    destruct (store_raises e _); [apply Hhandler|].
    intros [= <-]. simpl.
    exists (store_log w5 ++ [(RpcProcessAccountFollows did follows, true)]),
      completed, true.
    split; [done|]. split; [done|]. intros _. eauto.
Qed.

Lemma process_account_ends_with_mark_witness :
  ∃ log status ok,
    store_log (snd (process_account (two_pages second_page) 5 "did:x" "x.test"
                      (world_at 1000 (new_client None None))))
    = log ++ [(RpcMarkAccountCrawled "did:x" status, ok)] ∧
    (status ≠ error → ok = true) ∧
    (status = completed →
     ∃ log' follows,
       log = log' ++ [(RpcProcessAccountFollows "did:x" follows, true)]).
Proof.
  apply (process_account_ends_with_mark (two_pages second_page) 5 "did:x"
           "x.test" (world_at 1000 (new_client None None))).
  by vm_compute.
Defined.

End WorkerMore.
